(** * SpotifyBot: the playlist rotation of [mastodonBot.ts]

    A shallow embedding of [PlaylistDatabase], [MastodonClient] and
    [PlaylistBot], and the properties of the selection, formatting and
    increment cycle.

    Conventions of the embedding.
    - A JavaScript [number] holding a posted count is an integer-valued double,
      kept as its value in [Z]; [+ 1] on it is the addition of doubles
      ([add_one]: exact from -2^53 up to 2^53 - 1, rounded to the nearest
      double, ties to even, outside).  The only non-integer value the code can
      produce is the [Infinity] that [Math.min()] returns on no arguments,
      kept as a separate constructor.
    - A call with spread arguments, [Math.min(...xs)], takes one argument per
      element; the engine throws [RangeError] when there are more than it
      accepts.  That number depends on the engine and its stack and is the
      field [max_arguments] of the surroundings [Env].
    - Strings are [string] (byte strings); every pattern the code searches for
      is ASCII.
    - [this.db.data.playlists] is a [list]; the objects of the array are
      distinct (they come from one JSON parse), so the in-place update of one
      object is the update of one position of the list.
    - Effects (the database object, the JSON file, the console, the Mastodon
      API) are threaded through a state-and-exception monad [M]; what the
      surroundings decide (the random draw, the API reply, whether the file
      write succeeds) is an explicit [Env] argument.
    - [Low.read] and [Low.write] are those of lowdb: [read] replaces the data
      by the parsed file and keeps the data when there is no file; [write]
      replaces the file as a whole. *)

From Stdlib Require Import ZArith String Ascii Lia.
From stdpp Require Import base option list strings.

Local Open Scope Z_scope.

(** ** Data model *)

(** [interface PlaylistEntry] *)
Record PlaylistEntry := mkPlaylistEntry {
  name : string;
  uri : string;
  imageUrl : string;
  artistNames : list string;
  posted_count : option Z  (* optional *)
}.

(** [interface Database] *)
Record Database := mkDatabase {
  playlists : list PlaylistEntry
}.

(** A numeric result of [Math.min]: an integer, or [Infinity]. *)
Inductive number :=
  | Num (z : Z)
  | Infinity.

#[global] Instance number_eq_dec : EqDecision number.
Proof. solve_decision. Defined.

(** The least of the arguments of [Math.min]; [Infinity] when there is none. *)
Definition least (xs : list Z) : number :=
  foldr (fun x acc =>
           match acc with
           | Infinity => Num x
           | Num m => Num (Z.min x m)
           end) Infinity xs.

(** The value of one [Math.random()] call: the fraction
    [numer / (numer + slack + 1)], which ranges over the rationals of the
    interval from 0 (included) to 1 (excluded). *)
Record Random := mkRandom {
  numer : nat;
  slack : nat
}.

(** [Math.floor(r * n)] for a draw [r] and an array length [n]. *)
Definition floor_scaled (r : Random) (n : nat) : nat :=
  ((numer r * n) / (numer r + slack r + 1))%nat.

(** [p.posted_count ?? 0] *)
Definition effective_count (p : PlaylistEntry) : Z :=
  default 0 (posted_count p).

(** [z + 1] on doubles, for an integer-valued double [z]: exact as long as
    the sum has at most 53 bits; between 2^53 and 2^54 in magnitude the
    doubles are the even integers and [z + 1] lies halfway between [z] and
    [z + 2], so it goes to the one with the even mantissa; from 2^54 on it
    goes back to [z]. *)
Definition add_one (z : Z) : Z :=
  if (- 2 ^ 53 <=? z) && (z <? 2 ^ 53) then z + 1
  else if Z.abs z <? 2 ^ 54 then (if Z.even (Z.abs z / 2) then z else z + 2)
  else z.

(** ** Exceptions, events and the monad *)

Inductive exn :=
  | Error (message : string)   (* [new Error(message)] thrown by this code *)
  | ReadFailure                (* [Low.read] rejects: file unreadable or malformed *)
  | WriteFailure               (* [Low.write] rejects *)
  | ApiFailure                 (* [statuses.create] rejects *)
  | RangeError.                (* too many arguments in one call *)

(** The file [playlists_database.json]: missing, unreadable (inaccessible or
    not JSON), or holding a value of the shape of [interface Database], the
    type the [Low] instance is declared with.  Files that parse to another
    shape are outside this type. *)
Inductive Disk :=
  | Missing
  | Unreadable
  | Content (d : Database).

(** What a run does to the outside, oldest first. *)
Inductive Event :=
  | FileRead
  | FileWrite (d : Database) (done : bool)
  | StatusCreate (status : string)
  | ConsoleLog (args : list string)
  | ConsoleError (label : string) (error : exn).

Record World := mkWorld {
  data : option Database;   (* [this.db.data] of the [Low] instance *)
  disk : Disk;
  trace : list Event
}.

(** The reply of the Mastodon API to [statuses.create]. *)
Inductive ApiReply :=
  | Rejected
  | Created (id : option string).

(** What the surroundings decide during one run. *)
Record Env := mkEnv {
  random : Random;
  statuses_create : string -> ApiReply;
  write_succeeds : bool;
  max_arguments : N   (* the most arguments the engine accepts in one call *)
}.

Inductive Outcome (A : Type) :=
  | Return (a : A)
  | Throw (e : exn).
Arguments Return {A} a.
Arguments Throw {A} e.

Definition M (A : Type) : Type := World -> Outcome A * World.

Definition ret {A} (a : A) : M A := fun w => (Return a, w).
Definition throw {A} (e : exn) : M A := fun w => (Throw e, w).
Definition lift {A} (o : Outcome A) : M A := fun w => (o, w).
Definition bind {A B} (m : M A) (k : A -> M B) : M B := fun w =>
  match m w with
  | (Return a, w') => k a w'
  | (Throw e, w') => (Throw e, w')
  end.
Definition try_catch {A} (body : M A) (handler : exn -> M A) : M A := fun w =>
  match body w with
  | (Return a, w') => (Return a, w')
  | (Throw e, w') => handler e w'
  end.

Notation "'let!' x ':=' m 'in' k" := (bind m (fun x => k))
  (at level 10, x name, m at level 100, k at level 200).
Notation "m ';;' k" := (bind m (fun _ => k))
  (at level 100, k at level 200, right associativity).

(** [Math.min(...xs)]: one argument per element of [xs]; [RangeError] when
    they are more than the engine accepts. *)
Definition Math_min (limit : N) (xs : list Z) : Outcome number :=
  if (N.of_nat (length xs) <=? limit)%N then Return (least xs)
  else Throw RangeError.

Definition emit (e : Event) : M unit := fun w =>
  (Return tt, mkWorld (data w) (disk w) (trace w ++ [e])).

Definition console_log (args : list string) : M unit := emit (ConsoleLog args).
Definition console_error (label : string) (error : exn) : M unit :=
  emit (ConsoleError label error).

(** ** [class PlaylistDatabase] *)

(** [new Low(adapter, { playlists: [] })] *)
Definition defaultData : Database := mkDatabase [].

(** [Low.read]: the parsed file replaces the data; a missing file leaves the
    data as it is. *)
Definition Low_read : M unit := fun w =>
  let w' := mkWorld (data w) (disk w) (trace w ++ [FileRead]) in
  match disk w with
  | Missing => (Return tt, w')
  | Unreadable => (Throw ReadFailure, w')
  | Content d => (Return tt, mkWorld (Some d) (disk w) (trace w'))
  end.

(** [Low.write]: writes the data, when there is some, replacing the file as a
    whole; a failed write leaves the file as it was. *)
Definition Low_write (ok : bool) : M unit := fun w =>
  match data w with
  | None => (Return tt, w)
  | Some d =>
      if ok
      then (Return tt, mkWorld (data w) (Content d) (trace w ++ [FileWrite d true]))
      else (Throw WriteFailure, mkWorld (data w) (disk w) (trace w ++ [FileWrite d false]))
  end.

Definition read : M unit := Low_read.
Definition write (ok : bool) : M unit := Low_write ok.

(** [if (!this.db.data) throw new Error("Database not loaded")] *)
Definition loaded : M Database := fun w =>
  match data w with
  | None => (Throw (Error "Database not loaded"), w)
  | Some d => (Return d, w)
  end.

Definition getLowestPostedCountPlaylist (limit : N) (r : Random) :
    M (option PlaylistEntry) :=
  let! d := loaded in
  let! minPostedCount := lift (Math_min limit (map effective_count (playlists d))) in
  let candidatePlaylists :=
    filter (fun p => Num (effective_count p) = minPostedCount) (playlists d) in
  ret (candidatePlaylists !! floor_scaled r (length candidatePlaylists)).

(** [playlist.posted_count = (playlist.posted_count ?? 0) + 1] *)
Definition bump (playlist : PlaylistEntry) : PlaylistEntry :=
  mkPlaylistEntry (name playlist) (uri playlist) (imageUrl playlist)
    (artistNames playlist) (Some (add_one (effective_count playlist))).

(** The assignment to the field of the object found at position [i]. *)
Definition assign_bumped (i : nat) (playlist : PlaylistEntry) : M unit := fun w =>
  match data w with
  | None => (Return tt, w)
  | Some d =>
      (Return tt,
       mkWorld (Some (mkDatabase (<[i := bump playlist]> (playlists d))))
         (disk w) (trace w))
  end.

Definition incrementPostedCount (ok : bool) (playlistUri : string) : M unit :=
  let! d := loaded in
  match list_find (fun p => uri p = playlistUri) (playlists d) with
  | Some (i, playlist) =>
      assign_bumped i playlist ;;
      write ok
  | None => ret tt
  end.

(** ** [class MastodonClient] *)

(** [postedStatus?.id || ''] *)
Definition createStatus (env : Env) (status : string) : M string :=
  emit (StatusCreate status) ;;
  match statuses_create env status with
  | Rejected => throw ApiFailure
  | Created id => ret (default "" id)
  end.

(** ** String operations of the formatting step *)

Fixpoint skip (n : nat) (s : string) : string :=
  match n, s with
  | O, _ => s
  | S n', String _ s' => skip n' s'
  | S _, EmptyString => EmptyString
  end.

(** Whether [s] begins with [pattern]. *)
Fixpoint starts_with (pattern s : string) : bool :=
  match pattern, s with
  | EmptyString, _ => true
  | String a pattern', String b s' => Ascii.eqb a b && starts_with pattern' s'
  | String _ _, EmptyString => false
  end.

(** [s.replace(pattern, replacement)] with a string pattern; the search goes
    from the left and stops at the first position where the pattern begins. *)
Fixpoint replace (pattern replacement s : string) : string :=
  if starts_with pattern s
  then replacement +:+ skip (String.length pattern) s
  else match s with
       | EmptyString => EmptyString
       | String c s' => String c (replace pattern replacement s')
       end.

(** [s.split(sep)] for a separator of one character. *)
Fixpoint split (sep : ascii) (s : string) : list string :=
  match s with
  | EmptyString => [EmptyString]
  | String c s' =>
      if Ascii.eqb c sep then EmptyString :: split sep s'
      else match split sep s' with
           | piece :: pieces => String c piece :: pieces
           | [] => [String c EmptyString]
           end
  end.

(** [`${xs.pop()}`]: the last element, ["undefined"] on an empty array. *)
Definition pop_text (xs : list string) : string :=
  default "undefined"%string (last xs).

Definition LF : string := String "010"%char EmptyString.

Section Formatting.
Variable playlist : PlaylistEntry.

Definition artists : string :=
  String.concat ", " (take 3 (artistNames playlist)).
Definition urlFromUri : string :=
  "https://open.spotify.com/playlist/" +:+ pop_text (split ":" (uri playlist)).
Definition cleanName : string :=
  replace " Mix" "" (name playlist).
Definition statusText : string :=
  cleanName +:+ LF +:+ "Featuring " +:+ artists +:+ LF +:+ LF +:+ urlFromUri.
End Formatting.

(** ** [class PlaylistBot] *)

Definition postRandomPlaylist (env : Env) (dryRun : bool) : M unit :=
  read ;;
  let! selected := getLowestPostedCountPlaylist (max_arguments env) (random env) in
  match selected with
  | None => console_log ["No playlists available to post."%string]
  | Some playlist =>
      if dryRun then
        console_log ["--- DRY RUN ---"%string] ;;
        console_log ["Status Text:"%string; statusText playlist] ;;
        console_log ["--- END DRY RUN ---"%string]
      else
        try_catch
          (let! statusId := createStatus env (statusText playlist) in
           console_log ["Posted successfully:"%string; statusId] ;;
           incrementPostedCount (write_succeeds env) (uri playlist))
          (fun error => console_error "Error posting to Mastodon:" error)
  end.

(** The state of a freshly constructed bot next to a given file. *)
Definition fresh (d : Disk) : World := mkWorld (Some defaultData) d [].

(** The state after the file with content [d] has been loaded. *)
Definition fresh_with (d : Database) : World := mkWorld (Some d) (Content d) [].

(** Several calls in a row, each with its own surroundings. *)
Fixpoint runs (dryRun : bool) (envs : list Env) (w : World) : World :=
  match envs with
  | [] => w
  | env :: rest => runs dryRun rest (snd (postRandomPlaylist env dryRun w))
  end.

(** ** Notions used in the statements *)

Local Open Scope string_scope.
Local Open Scope list_scope.

(** The records of [d] are not more than the engine accepts as arguments. *)
Definition fits (limit : N) (d : Database) : bool :=
  (N.of_nat (length (playlists d)) <=? limit)%N.

(** The record the selector returns on a loaded database that fits. *)
Definition selection (r : Random) (d : Database) : option PlaylistEntry :=
  let candidatePlaylists :=
    filter (fun p => Num (effective_count p) =
                     least (map effective_count (playlists d)))
           (playlists d) in
  candidatePlaylists !! floor_scaled r (length candidatePlaylists).

(** The world with further events recorded. *)
Definition logged (w : World) (evs : list Event) : World :=
  mkWorld (data w) (disk w) (trace w ++ evs).
Infix "+>" := logged (at level 50, left associativity).

(** The world right after [await this.db.read()] when it does not throw. *)
Definition after_read (w : World) : World :=
  match disk w with
  | Content d => mkWorld (Some d) (disk w) (trace w ++ [FileRead])
  | _ => logged w [FileRead]
  end.

(** [s.includes(pattern)]: the pattern begins at some position of [s]. *)
Fixpoint occurs (pattern s : string) : bool :=
  starts_with pattern s ||
  match s with
  | EmptyString => false
  | String _ s' => occurs pattern s'
  end.

(** Events that reach neither the file's content nor the Mastodon API. *)
Definition harmless (e : Event) : Prop :=
  match e with
  | FileWrite _ _ | StatusCreate _ => False
  | FileRead | ConsoleLog _ | ConsoleError _ _ => True
  end.




(** ** Sample inputs *)


(** A two-record database, loaded, used to instantiate the statements. *)
Definition sample_db : Database :=
  mkDatabase [ mkPlaylistEntry "Chill Mix" "spotify:playlist:u1" "" ["A"] (Some 3);
               mkPlaylistEntry "Focus Mix" "spotify:playlist:u2" "" ["B"; "C"] (Some 1) ].

Definition sample_world : World := fresh_with sample_db.



Definition sample_db_bumped : Database :=
  mkDatabase [ mkPlaylistEntry "Chill Mix" "spotify:playlist:u1" "" ["A"] (Some 3);
               mkPlaylistEntry "Focus Mix" "spotify:playlist:u2" "" ["B"; "C"] (Some 2) ].

Definition sample_selected : PlaylistEntry :=
  mkPlaylistEntry "Focus Mix" "spotify:playlist:u2" "" ["B"; "C"] (Some 1).

Definition named (n : string) : PlaylistEntry := mkPlaylistEntry n "" "" [] None.

(** An argument limit of the size Node shows on its default stack. *)
Definition node_arguments : N := 120000.

Definition accepting_env : Env :=
  mkEnv (mkRandom 0 0) (fun _ => Created (Some "109")) true node_arguments.

Definition rejecting_env : Env :=
  mkEnv (mkRandom 0 0) (fun _ => Rejected) true node_arguments.

Definition failing_write_env : Env :=
  mkEnv (mkRandom 0 0) (fun _ => Created (Some "109")) false node_arguments.

(** ** The process: constructor of the bot and [main] *)

(** [process.env], after [dotenv.config()], and [process.argv]. *)
Record Process := mkProcess {
  MASTODON_URL : option string;
  MASTODON_ACCESS_TOKEN : option string;
  argv : list string
}.

(** [!v] for a variable of the environment: [undefined] and [''] are falsy. *)
Definition falsy (v : option string) : bool :=
  match v with
  | None => true
  | Some EmptyString => true
  | Some (String _ _) => false
  end.

(** The world before any object exists, next to a given file. *)
Definition boot (d : Disk) : World := mkWorld None d [].

(** [new PlaylistDatabase()]: the [Low] instance starts with the default data. *)
Definition PlaylistDatabase_new : M unit := fun w =>
  (Return tt, mkWorld (Some defaultData) (disk w) (trace w)).

(** [new PlaylistBot()] *)
Definition PlaylistBot_new (proc : Process) : M unit :=
  PlaylistDatabase_new ;;
  if falsy (MASTODON_URL proc) || falsy (MASTODON_ACCESS_TOKEN proc)
  then throw (Error "MASTODON_URL or MASTODON_ACCESS_TOKEN is not set in the environment variables")
  else ret tt.

Definition main (proc : Process) (env : Env) : M unit :=
  PlaylistBot_new proc ;;
  let dryRun := bool_decide ("--dry-run" ∈ argv proc) in
  postRandomPlaylist env dryRun.

(** [main().catch(console.error)]; the error is logged without a label. *)
Definition program (proc : Process) (env : Env) : M unit :=
  try_catch (main proc env) (fun error => console_error "" error).

(** ** Further notions *)

(** The events a step adds to the trace. *)
Definition new_events (w w' : World) : list Event :=
  drop (length (trace w)) (trace w').

(** The paths of [postRandomPlaylist] next to a file that is missing,
    unreadable or holds a [Database], each with its outcome and final world. *)
Inductive run_path (env : Env) (dryRun : bool) (w : World) :
    Outcome unit -> World -> Prop :=
  | path_unreadable :
      disk w = Unreadable ->
      run_path env dryRun w (Throw ReadFailure) (w +> [FileRead])
  | path_unloaded :
      disk w <> Unreadable -> data (after_read w) = None ->
      run_path env dryRun w (Throw (Error "Database not loaded")) (after_read w)
  | path_too_many (d : Database) :
      disk w <> Unreadable -> data (after_read w) = Some d ->
      fits (max_arguments env) d = false ->
      run_path env dryRun w (Throw RangeError) (after_read w)
  | path_nothing (d : Database) :
      disk w <> Unreadable -> data (after_read w) = Some d ->
      fits (max_arguments env) d = true ->
      selection (random env) d = None ->
      run_path env dryRun w (Return tt)
        (after_read w +> [ConsoleLog ["No playlists available to post."]])
  | path_dry (d : Database) (p : PlaylistEntry) :
      disk w <> Unreadable -> data (after_read w) = Some d ->
      fits (max_arguments env) d = true ->
      selection (random env) d = Some p -> dryRun = true ->
      run_path env dryRun w (Return tt)
        (after_read w +> [ConsoleLog ["--- DRY RUN ---"];
                          ConsoleLog ["Status Text:"; statusText p];
                          ConsoleLog ["--- END DRY RUN ---"]])
  | path_rejected (d : Database) (p : PlaylistEntry) :
      disk w <> Unreadable -> data (after_read w) = Some d ->
      fits (max_arguments env) d = true ->
      selection (random env) d = Some p -> dryRun = false ->
      statuses_create env (statusText p) = Rejected ->
      run_path env dryRun w (Return tt)
        (after_read w +> [StatusCreate (statusText p);
                          ConsoleError "Error posting to Mastodon:" ApiFailure])
  | path_posted (d : Database) (p : PlaylistEntry) (id : option string)
      (i : nat) (q : PlaylistEntry) :
      disk w <> Unreadable -> data (after_read w) = Some d ->
      fits (max_arguments env) d = true ->
      selection (random env) d = Some p -> dryRun = false ->
      statuses_create env (statusText p) = Created id ->
      list_find (fun x => uri x = uri p) (playlists d) = Some (i, q) ->
      run_path env dryRun w (Return tt)
        (mkWorld (Some (mkDatabase (<[i := bump q]> (playlists d))))
           (if write_succeeds env
            then Content (mkDatabase (<[i := bump q]> (playlists d)))
            else disk w)
           (trace w ++
            [FileRead; StatusCreate (statusText p);
             ConsoleLog ["Posted successfully:"; default "" id];
             FileWrite (mkDatabase (<[i := bump q]> (playlists d)))
               (write_succeeds env)] ++
            (if write_succeeds env then []
             else [ConsoleError "Error posting to Mastodon:" WriteFailure]))).

(** Several calls of [incrementPostedCount] with one uri, each with its own
    outcome of the write. *)
Fixpoint increments (oks : list bool) (playlistUri : string) (w : World) : World :=
  match oks with
  | [] => w
  | ok :: rest =>
      increments rest playlistUri (snd (incrementPostedCount ok playlistUri w))
  end.

(** The sum of the effective counts. *)
Definition total (ps : list PlaylistEntry) : Z :=
  foldr (fun p acc => effective_count p + acc) 0 ps.

(** The number of writes that reached the file. *)
Fixpoint completed_writes (evs : list Event) : nat :=
  match evs with
  | [] => O
  | FileWrite _ true :: rest => S (completed_writes rest)
  | _ :: rest => completed_writes rest
  end.

(** Counts that [n] further increments keep where [+ 1] is exact on doubles. *)
Definition room_for (n : nat) (ps : list PlaylistEntry) : Prop :=
  forall q, q ∈ ps ->
    (- 2 ^ 53 <= effective_count q)%Z /\
    (effective_count q + Z.of_nat n <= 2 ^ 53)%Z.


(** A collection in which two records share a uri. *)
Definition twins_db : Database :=
  mkDatabase [ mkPlaylistEntry "One" "spotify:playlist:u1" "" [] (Some 1);
               mkPlaylistEntry "Two" "spotify:playlist:u2" "" [] None;
               mkPlaylistEntry "Two again" "spotify:playlist:u2" "" [] (Some 5) ].

(** A collection with distinct uris and counts at most one apart. *)
Definition level_db : Database :=
  mkDatabase [ mkPlaylistEntry "One Mix" "spotify:playlist:a" "" ["A"] (Some 2);
               mkPlaylistEntry "Two Mix" "spotify:playlist:b" "" ["B"] (Some 1);
               mkPlaylistEntry "Three" "spotify:playlist:c" "" [] (Some 1) ].

(** Two records that were each posted once. *)
Definition even_db : Database :=
  mkDatabase [ mkPlaylistEntry "One Mix" "spotify:playlist:a" "" ["A"] (Some 1);
               mkPlaylistEntry "Two Mix" "spotify:playlist:b" "" ["B"] (Some 1) ].

(** Surroundings with a draw close to 1, an id-less reply and a good write. *)
Definition late_draw_env : Env :=
  mkEnv (mkRandom 9 0) (fun _ => Created None) true node_arguments.

Definition configured : Process :=
  mkProcess (Some "https://example.social") (Some "token") ["node"; "bot.js"].

Definition configured_dry : Process :=
  mkProcess (Some "https://example.social") (Some "token")
    ["node"; "bot.js"; "--dry-run"].

Definition unconfigured : Process :=
  mkProcess (Some "https://example.social") None ["node"; "bot.js"].

(** * Properties *)

(** ** The monad on a loaded database *)

Lemma loaded_Some (w : World) (d : Database) :
  data w = Some d -> loaded w = (Return d, w).
Proof. intros H. unfold loaded. now rewrite H. Qed.

Lemma world_eta (w : World) : mkWorld (data w) (disk w) (trace w) = w.
Proof. now destruct w. Qed.

(** ** Adding one to a count *)

Lemma add_one_exact (z : Z) :
  (- 2 ^ 53 <= z < 2 ^ 53)%Z -> add_one z = z + 1.
Proof.
  intros [Hlo Hhi]. unfold add_one.
  apply Z.leb_le in Hlo. apply Z.ltb_lt in Hhi. now rewrite Hlo, Hhi.
Qed.


(** The values around the end of the exact range. *)
Lemma add_one_at_the_edge :
  add_one (2 ^ 53 - 1) = 2 ^ 53 /\ add_one (2 ^ 53) = 2 ^ 53 /\
  add_one (2 ^ 53 + 2) = 2 ^ 53 + 4 /\ add_one (2 ^ 53 + 4) = 2 ^ 53 + 4 /\
  add_one (2 ^ 54) = 2 ^ 54 /\ add_one (- 2 ^ 53) = - 2 ^ 53 + 1 /\
  add_one (- 2 ^ 53 - 2) = - 2 ^ 53.
Proof. repeat split. Qed.

Lemma bump_count (p : PlaylistEntry) :
  effective_count (bump p) = add_one (effective_count p).
Proof. reflexivity. Qed.

Lemma bump_count_exact (p : PlaylistEntry) :
  (- 2 ^ 53 <= effective_count p < 2 ^ 53)%Z ->
  effective_count (bump p) = effective_count p + 1.
Proof. intros H. rewrite bump_count. now apply add_one_exact. Qed.

(** ** Selection *)

Section Selection.

Lemma getLowest_loaded (limit : N) (r : Random) (w : World) (d : Database) :
  data w = Some d ->
  getLowestPostedCountPlaylist limit r w =
    (if fits limit d then Return (selection r d) else Throw RangeError, w).
Proof.
  intros H. unfold getLowestPostedCountPlaylist, bind at 1.
  rewrite (loaded_Some w d H).
  unfold bind, lift, Math_min, fits. rewrite length_map.
  now destruct (N.of_nat (length (playlists d)) <=? limit)%N.
Qed.

Lemma getLowest_fits (limit : N) (r : Random) (w : World) (d : Database) :
  data w = Some d -> fits limit d = true ->
  getLowestPostedCountPlaylist limit r w = (Return (selection r d), w).
Proof. intros H F. now rewrite (getLowest_loaded limit r w d H), F. Qed.

Lemma getLowest_too_many (limit : N) (r : Random) (w : World) (d : Database) :
  data w = Some d -> fits limit d = false ->
  getLowestPostedCountPlaylist limit r w = (Throw RangeError, w).
Proof. intros H F. now rewrite (getLowest_loaded limit r w d H), F. Qed.

Lemma getLowest_unloaded (limit : N) (r : Random) (w : World) :
  data w = None ->
  getLowestPostedCountPlaylist limit r w =
    (Throw (Error "Database not loaded"), w).
Proof.
  intros H. unfold getLowestPostedCountPlaylist, bind, loaded. now rewrite H.
Qed.

Lemma least_cons (x : Z) (xs : list Z) :
  exists m, least (x :: xs) = Num m /\ m ∈ x :: xs /\
            forall y, y ∈ x :: xs -> m <= y.
Proof.
  revert x. induction xs as [|x' xs IH]; intros x.
  - exists x. split; [reflexivity|]. split; [left|].
    intros y Hy. apply list_elem_of_singleton in Hy. lia.
  - destruct (IH x') as (m & Hm & Hin & Hle).
    exists (Z.min x m). split.
    + change (least (x :: x' :: xs))
        with (match least (x' :: xs) with
              | Infinity => Num x
              | Num m0 => Num (Z.min x m0)
              end).
      now rewrite Hm.
    + split.
      * destruct (Z.min_spec x m) as [[_ ->]|[_ ->]]; [left | now right].
      * intros y Hy. apply elem_of_cons in Hy as [->|Hy]; [lia|].
        specialize (Hle y Hy). lia.
Qed.

Lemma floor_scaled_lt (r : Random) (n : nat) :
  (0 < n)%nat -> (floor_scaled r n < n)%nat.
Proof.
  intros Hn. unfold floor_scaled.
  apply Nat.Div0.div_lt_upper_bound. nia.
Qed.

Lemma selection_member (r : Random) (d : Database) (p : PlaylistEntry) :
  selection r d = Some p ->
  p ∈ playlists d /\
  Num (effective_count p) = least (map effective_count (playlists d)).
Proof.
  unfold selection. intros H.
  apply list_elem_of_lookup_2 in H. apply list_elem_of_filter in H. tauto.
Qed.

Lemma selection_nonempty (r : Random) (d : Database) :
  playlists d <> [] -> is_Some (selection r d).
Proof.
  intros Hne. unfold selection.
  apply lookup_lt_is_Some_2, floor_scaled_lt.
  destruct (playlists d) as [|p0 ps] eqn:E; [congruence|].
  destruct (least_cons (effective_count p0) (map effective_count ps))
    as (m & Hm & Hin & _).
  change (effective_count p0 :: map effective_count ps)
    with (map effective_count (p0 :: ps)) in Hm, Hin.
  apply list_elem_of_fmap in Hin as (q & -> & Hq).
  assert (Hf : q ∈ filter (fun p => Num (effective_count p) =
                   least (map effective_count (p0 :: ps))) (p0 :: ps)).
  { apply list_elem_of_filter. split; [now rewrite Hm | exact Hq]. }
  destruct (filter _ (p0 :: ps)); [inversion Hf | simpl; lia].
Qed.

Lemma selection_minimal (r : Random) (d : Database) (p q : PlaylistEntry) :
  selection r d = Some p -> q ∈ playlists d ->
  effective_count p <= effective_count q.
Proof.
  intros Hsel Hq. apply selection_member in Hsel as [Hp Hmin].
  destruct (playlists d) as [|p0 ps] eqn:E; [inversion Hq|].
  destruct (least_cons (effective_count p0) (map effective_count ps))
    as (m & Hm & _ & Hle).
  change (effective_count p0 :: map effective_count ps)
    with (map effective_count (p0 :: ps)) in Hm, Hle.
  rewrite Hm in Hmin. injection Hmin as ->.
  apply Hle, list_elem_of_fmap. now exists q.
Qed.

Lemma selection_empty (r : Random) : selection r (mkDatabase []) = None.
Proof. reflexivity. Qed.

Lemma fits_iff (limit : N) (d : Database) :
  fits limit d = true <-> (N.of_nat (length (playlists d)) <= limit)%N.
Proof. unfold fits. apply N.leb_le. Qed.

Lemma fits_empty (limit : N) : fits limit (mkDatabase []) = true.
Proof. apply fits_iff. simpl. lia. Qed.


End Selection.




(** ** The paths of one run *)

Lemma logged_logged (w : World) (a b : list Event) :
  logged (logged w a) b = logged w (a ++ b).
Proof. unfold logged; simpl. now rewrite <- app_assoc. Qed.

Lemma emit_logged (e : Event) (w : World) : emit e w = (Return tt, logged w [e]).
Proof. reflexivity. Qed.

Lemma read_ok (w : World) :
  disk w <> Unreadable -> read w = (Return tt, after_read w).
Proof.
  intros H. unfold read, Low_read, after_read, logged.
  destruct (disk w); [reflexivity | congruence | reflexivity].
Qed.

Lemma read_fails (w : World) :
  disk w = Unreadable -> read w = (Throw ReadFailure, logged w [FileRead]).
Proof. intros H. unfold read, Low_read, logged. rewrite H. reflexivity. Qed.

Lemma after_read_disk (w : World) : disk (after_read w) = disk w.
Proof. unfold after_read, logged. now destruct (disk w) eqn:E. Qed.

Lemma after_read_trace (w : World) : trace (after_read w) = trace w ++ [FileRead].
Proof. unfold after_read, logged. now destruct (disk w) eqn:E. Qed.

Lemma after_read_data (w : World) :
  data (after_read w) =
    match disk w with Content d => Some d | _ => data w end.
Proof. unfold after_read, logged. now destruct (disk w) eqn:E. Qed.

Section Increment.
Variables (ok : bool) (playlistUri : string) (w : World) (d : Database).
Hypothesis Hdata : data w = Some d.

Lemma increment_not_found :
  list_find (fun p => uri p = playlistUri) (playlists d) = None ->
  incrementPostedCount ok playlistUri w = (Return tt, w).
Proof.
  intros Hfind. unfold incrementPostedCount, bind.
  now rewrite (loaded_Some w d Hdata), Hfind.
Qed.

Lemma increment_found (i : nat) (q : PlaylistEntry) :
  list_find (fun p => uri p = playlistUri) (playlists d) = Some (i, q) ->
  let d' := mkDatabase (<[i := bump q]> (playlists d)) in
  incrementPostedCount ok playlistUri w =
    if ok
    then (Return tt, mkWorld (Some d') (Content d') (trace w ++ [FileWrite d' true]))
    else (Throw WriteFailure,
          mkWorld (Some d') (disk w) (trace w ++ [FileWrite d' false])).
Proof.
  intros Hfind d'. unfold incrementPostedCount, bind.
  rewrite (loaded_Some w d Hdata), Hfind.
  unfold assign_bumped, write, Low_write. rewrite Hdata. simpl.
  now destruct ok.
Qed.
End Increment.

(** A record of the collection is found by its own uri, at the first position
    holding that uri. *)
Lemma find_own_uri (ps : list PlaylistEntry) (p : PlaylistEntry) :
  p ∈ ps ->
  exists i q, list_find (fun x => uri x = uri p) ps = Some (i, q) /\
              ps !! i = Some q /\ uri q = uri p.
Proof.
  intros Hin.
  destruct (list_find_elem_of (fun x => uri x = uri p) ps p Hin eq_refl)
    as [[i q] Hf].
  exists i, q. split; [exact Hf|].
  apply list_find_Some in Hf. tauto.
Qed.

(** With distinct uris that position is the position of the record itself. *)
Lemma find_own_uri_NoDup (ps : list PlaylistEntry) (p : PlaylistEntry) (i : nat) :
  NoDup (map uri ps) -> ps !! i = Some p ->
  list_find (fun x => uri x = uri p) ps = Some (i, p).
Proof.
  intros Hnd Hi.
  destruct (find_own_uri ps p) as (j & q & Hf & Hj & Hu).
  { apply list_elem_of_lookup_2 in Hi. exact Hi. }
  assert (j = i).
  { apply (NoDup_lookup (map uri ps) j i (uri p)); [exact Hnd| |].
    - rewrite list_lookup_fmap, Hj. simpl. now rewrite Hu.
    - now rewrite list_lookup_fmap, Hi. }
  subst j. rewrite Hf. congruence.
Qed.

Section Run.
Variables (env : Env) (w : World).

Lemma run_read_failure (dryRun : bool) :
  disk w = Unreadable ->
  postRandomPlaylist env dryRun w = (Throw ReadFailure, logged w [FileRead]).
Proof.
  intros H. unfold postRandomPlaylist, bind. now rewrite (read_fails w H).
Qed.

Hypothesis Hread : disk w <> Unreadable.

Lemma run_unloaded (dryRun : bool) :
  data (after_read w) = None ->
  postRandomPlaylist env dryRun w =
    (Throw (Error "Database not loaded"), after_read w).
Proof.
  intros H. unfold postRandomPlaylist, bind at 1. rewrite (read_ok w Hread).
  unfold bind. now rewrite (getLowest_unloaded _ _ _ H).
Qed.

Variable d : Database.
Hypothesis Hdata : data (after_read w) = Some d.

Lemma run_too_many (dryRun : bool) :
  fits (max_arguments env) d = false ->
  postRandomPlaylist env dryRun w = (Throw RangeError, after_read w).
Proof.
  intros F. unfold postRandomPlaylist, bind at 1. rewrite (read_ok w Hread).
  unfold bind. now rewrite (getLowest_too_many _ _ _ d Hdata F).
Qed.

Hypothesis Hfit : fits (max_arguments env) d = true.

Lemma run_nothing (dryRun : bool) :
  selection (random env) d = None ->
  postRandomPlaylist env dryRun w =
    (Return tt,
     logged (after_read w) [ConsoleLog ["No playlists available to post."]]).
Proof.
  intros H. unfold postRandomPlaylist, bind at 1. rewrite (read_ok w Hread).
  unfold bind. now rewrite (getLowest_fits _ _ _ d Hdata Hfit), H.
Qed.

Variable playlist : PlaylistEntry.
Hypothesis Hsel : selection (random env) d = Some playlist.

Lemma run_dry :
  postRandomPlaylist env true w =
    (Return tt,
     logged (after_read w)
       [ConsoleLog ["--- DRY RUN ---"];
        ConsoleLog ["Status Text:"; statusText playlist];
        ConsoleLog ["--- END DRY RUN ---"]]).
Proof.
  unfold postRandomPlaylist, bind at 1. rewrite (read_ok w Hread).
  unfold bind at 1. rewrite (getLowest_fits _ _ _ d Hdata Hfit), Hsel.
  unfold bind, console_log. rewrite !emit_logged, !logged_logged. reflexivity.
Qed.

Lemma run_rejected :
  statuses_create env (statusText playlist) = Rejected ->
  postRandomPlaylist env false w =
    (Return tt,
     logged (after_read w)
       [StatusCreate (statusText playlist);
        ConsoleError "Error posting to Mastodon:" ApiFailure]).
Proof.
  intros Hrej.
  unfold postRandomPlaylist, bind at 1. rewrite (read_ok w Hread).
  unfold bind at 1. rewrite (getLowest_fits _ _ _ d Hdata Hfit), Hsel.
  unfold try_catch, bind, createStatus, bind. rewrite emit_logged, Hrej.
  unfold throw, console_error. rewrite emit_logged, logged_logged. reflexivity.
Qed.

Lemma run_posted (id : option string) (i : nat) (q : PlaylistEntry) :
  statuses_create env (statusText playlist) = Created id ->
  list_find (fun p => uri p = uri playlist) (playlists d) = Some (i, q) ->
  let d' := mkDatabase (<[i := bump q]> (playlists d)) in
  let posted := [StatusCreate (statusText playlist);
                 ConsoleLog ["Posted successfully:"; default "" id]] in
  postRandomPlaylist env false w =
    if write_succeeds env
    then (Return tt,
          mkWorld (Some d') (Content d')
            (trace (after_read w) ++ posted ++ [FileWrite d' true]))
    else (Return tt,
          mkWorld (Some d') (disk w)
            (trace (after_read w) ++ posted ++
             [FileWrite d' false;
              ConsoleError "Error posting to Mastodon:" WriteFailure])).
Proof.
  intros Hid Hfind d' posted.
  unfold postRandomPlaylist, bind at 1. rewrite (read_ok w Hread).
  unfold bind at 1. rewrite (getLowest_fits _ _ _ d Hdata Hfit), Hsel.
  unfold try_catch, bind at 1, createStatus, bind at 1.
  rewrite emit_logged, Hid. unfold ret, bind at 1, console_log.
  rewrite emit_logged, logged_logged.
  rewrite (increment_found (write_succeeds env) (uri playlist)
             (logged (after_read w) _) d Hdata i q Hfind).
  destruct (write_succeeds env); simpl.
  - now rewrite <- app_assoc.
  - unfold console_error, emit; simpl.
    rewrite after_read_disk, <- !app_assoc. reflexivity.
Qed.
End Run.

(** Reading back the hypotheses that are stated on the source functions. *)
Lemma read_inv (w w1 : World) :
  read w = (Return tt, w1) -> disk w <> Unreadable /\ w1 = after_read w.
Proof.
  intros H.
  assert (E : disk w <> Unreadable).
  { intros E. rewrite (read_fails w E) in H. discriminate. }
  split; [exact E|]. rewrite (read_ok w E) in H. congruence.
Qed.

Lemma getLowest_inv (limit : N) (r : Random) (w w' : World)
    (sel : option PlaylistEntry) :
  getLowestPostedCountPlaylist limit r w = (Return sel, w') ->
  exists d, data w = Some d /\ fits limit d = true /\ selection r d = sel.
Proof.
  intros H. destruct (data w) as [d|] eqn:E.
  - exists d. rewrite (getLowest_loaded limit r w d E) in H.
    destruct (fits limit d); [|discriminate].
    repeat split; congruence.
  - rewrite (getLowest_unloaded limit r w E) in H. discriminate.
Qed.

(** ** C2: a failing store write after a successful publish *)




(** ** C3: a rejected status *)

(** C3: when [statuses.create] rejects the status of the selected record, the
    run returns normally; the database object holds the collection as it was
    loaded, the file is as it was, and the only events after the read are the
    call of the API and the logged error: no write of the file. *)
Theorem publish_rejected_changes_nothing
    (env : Env) (w w1 : World) (playlist : PlaylistEntry) :
  read w = (Return tt, w1) ->
  getLowestPostedCountPlaylist (max_arguments env) (random env) w1 = (Return (Some playlist), w1) ->
  statuses_create env (statusText playlist) = Rejected ->
  exists w',
    postRandomPlaylist env false w = (Return tt, w') /\
    data w' = data w1 /\
    disk w' = disk w /\
    trace w' = trace w ++
      [ FileRead;
        StatusCreate (statusText playlist);
        ConsoleError "Error posting to Mastodon:" ApiFailure ] /\
    (forall dw ok, FileWrite dw ok ∉ drop (length (trace w)) (trace w')).
Proof.
  intros Hread Hsel Hrej.
  apply read_inv in Hread as [Hdisk ->].
  apply getLowest_inv in Hsel as (d & Hd & Hfit & Hsel).
  eexists. split.
  { apply (run_rejected env w Hdisk d Hd Hfit playlist Hsel Hrej). }
  assert (Ht : trace (logged (after_read w)
                 [StatusCreate (statusText playlist);
                  ConsoleError "Error posting to Mastodon:" ApiFailure]) =
               trace w ++ [FileRead; StatusCreate (statusText playlist);
                           ConsoleError "Error posting to Mastodon:" ApiFailure]).
  { simpl. rewrite after_read_trace, <- app_assoc. reflexivity. }
  repeat split.
  - simpl. apply after_read_disk.
  - exact Ht.
  - intros dw ok. rewrite Ht, drop_app_length.
    intros Hin. repeat (apply elem_of_cons in Hin as [Hin|Hin]; [discriminate|]).
    inversion Hin.
Qed.

Lemma publish_rejected_changes_nothing_witness :
  read (fresh (Content sample_db)) = (Return tt, fresh_with sample_db +> [FileRead]) /\
  getLowestPostedCountPlaylist (max_arguments rejecting_env) (random rejecting_env) (fresh_with sample_db +> [FileRead]) =
    (Return (Some sample_selected), fresh_with sample_db +> [FileRead]) /\
  statuses_create rejecting_env (statusText sample_selected) = Rejected /\
  exists w',
    postRandomPlaylist rejecting_env false (fresh (Content sample_db)) = (Return tt, w') /\
    data w' = data (fresh_with sample_db +> [FileRead]) /\
    disk w' = disk (fresh (Content sample_db)) /\
    trace w' = trace (fresh (Content sample_db)) ++
      [ FileRead;
        StatusCreate (statusText sample_selected);
        ConsoleError "Error posting to Mastodon:" ApiFailure ] /\
    (forall dw ok,
        FileWrite dw ok ∉ drop (length (trace (fresh (Content sample_db)))) (trace w')).
Proof.
  split; [reflexivity|]. split; [reflexivity|]. split; [reflexivity|].
  apply (publish_rejected_changes_nothing rejecting_env
           (fresh (Content sample_db)) (fresh_with sample_db +> [FileRead])
           sample_selected); reflexivity.
Defined.

(** ** C4: a successful publish *)




(** ** C5: dry runs *)

Lemma dry_run_once (env : Env) (w : World) :
  exists evs,
    snd (postRandomPlaylist env true w) =
      mkWorld (match disk w with Content d => Some d | _ => data w end)
              (disk w) (trace w ++ evs) /\
    Forall harmless evs.
Proof.
  destruct (disk w) as [| |d0] eqn:Hdisk.
  1, 3: assert (Hok : disk w <> Unreadable) by congruence;
    pose proof (after_read_data w) as Hdata; rewrite Hdisk in Hdata;
    pose proof (after_read_disk w) as Hdk; rewrite Hdisk in Hdk;
    pose proof (after_read_trace w) as Htr.
  3: { exists [FileRead]. rewrite (run_read_failure env w true Hdisk).
       unfold logged; simpl. rewrite Hdisk.
       split; [reflexivity | repeat constructor]. }
  all: destruct (data (after_read w)) as [d|] eqn:Hd;
    [ destruct (fits (max_arguments env) d) eqn:Hfit;
      [ destruct (selection (random env) d) as [p|] eqn:Hsel;
        [ rewrite (run_dry env w Hok d Hd Hfit p Hsel)
        | rewrite (run_nothing env w Hok d Hd Hfit true Hsel) ]
      | rewrite (run_too_many env w Hok d Hd true Hfit),
                <- (world_eta (after_read w)) ]
    | rewrite (run_unloaded env w Hok true Hd), <- (world_eta (after_read w)) ];
    unfold logged; simpl; rewrite ?Hd, ?Hdk, ?Htr, <- ?app_assoc, <- ?Hdata;
    eexists; (split; [reflexivity | simpl; repeat constructor]).
Qed.

(** C5: any number of dry runs, whatever the surroundings of each, leave the
    file as it is, write nothing, call the API never, and leave in the
    database object either what it held or the content of the file. *)
Theorem dry_run_never_touches_store (envs : list Env) (w : World) :
  disk (runs true envs w) = disk w /\
  (exists evs, trace (runs true envs w) = trace w ++ evs /\
               Forall harmless evs /\
               (forall dw ok, FileWrite dw ok ∉ evs) /\
               (forall s, StatusCreate s ∉ evs)) /\
  (data (runs true envs w) = data w \/
   exists d, disk w = Content d /\ data (runs true envs w) = Some d).
Proof.
  assert (G : disk (runs true envs w) = disk w /\
    (exists evs, trace (runs true envs w) = trace w ++ evs /\ Forall harmless evs) /\
    (data (runs true envs w) = data w \/
     exists d, disk w = Content d /\ data (runs true envs w) = Some d)).
  { revert w. induction envs as [|env envs IH]; intros w; simpl.
    - split; [reflexivity|]. split; [|now left].
      exists []. now rewrite app_nil_r.
    - destruct (dry_run_once env w) as (evs & -> & Hevs).
      destruct (IH (mkWorld (match disk w with Content d => Some d | _ => data w end)
                      (disk w) (trace w ++ evs))) as (Hdk & (evs' & Htr & Hevs') & Hdt).
      simpl in Hdk, Htr, Hdt.
      split; [exact Hdk|]. split.
      + exists (evs ++ evs'). rewrite Htr, <- app_assoc. split; [reflexivity|].
        now apply Forall_app.
      + destruct (disk w) as [| |d0] eqn:Hdisk.
        * exact Hdt.
        * exact Hdt.
        * right. exists d0. split; [reflexivity|].
          destruct Hdt as [Hdt|(d1 & Hd1 & Hdt)]; [exact Hdt | congruence]. }
  destruct G as (Hdk & (evs & Htr & Hevs) & Hdt).
  split; [exact Hdk|]. split; [|exact Hdt].
  exists evs. split; [exact Htr|]. split; [exact Hevs|].
  rewrite Forall_forall in Hevs.
  split; intros ? ; [intros ?|]; intros Hin; apply (Hevs _ Hin).
Qed.

(** ** C6 and C7: the status text *)

#[local] Arguments String.append !s1 s2 : simpl nomatch.

Section Strings.

Lemma append_assoc (a b c : string) : (a +:+ b) +:+ c = a +:+ (b +:+ c).
Proof. induction a as [|x a IH]; simpl; [reflexivity | now rewrite IH]. Qed.

Lemma append_length (a b : string) :
  String.length (a +:+ b) = (String.length a + String.length b)%nat.
Proof. induction a as [|x a IH]; simpl; [reflexivity | now rewrite IH]. Qed.

Lemma starts_with_spec (pattern s : string) :
  starts_with pattern s = true <-> exists rest, s = pattern +:+ rest.
Proof.
  revert s. induction pattern as [|a pattern IH]; intros s; simpl.
  - split; [intros _; now exists s | reflexivity].
  - destruct s as [|b s].
    + split; [discriminate | intros [rest H]; discriminate].
    + rewrite andb_true_iff, Ascii.eqb_eq, IH. split.
      * intros [-> [rest ->]]. now exists rest.
      * intros [rest H]. injection H as -> ->. split; [reflexivity | now exists rest].
Qed.

Lemma starts_with_long (pattern a b : string) :
  (String.length pattern <= String.length a)%nat ->
  starts_with pattern (a +:+ b) = starts_with pattern a.
Proof.
  revert a. induction pattern as [|x pattern IH]; intros a Hlen; simpl.
  - reflexivity.
  - destruct a as [|y a]; simpl in *; [lia|].
    rewrite IH by lia. reflexivity.
Qed.

Lemma skip_append (pattern s : string) :
  skip (String.length pattern) (pattern +:+ s) = s.
Proof. induction pattern as [|a pattern IH]; simpl; [reflexivity | exact IH]. Qed.

Lemma replace_unfold (pattern replacement s : string) :
  replace pattern replacement s =
    if starts_with pattern s
    then replacement +:+ skip (String.length pattern) s
    else match s with
         | EmptyString => EmptyString
         | String c s' => String c (replace pattern replacement s')
         end.
Proof. destruct s; reflexivity. Qed.

Lemma occurs_spec (pattern s : string) :
  occurs pattern s = true <-> exists a b, s = a +:+ pattern +:+ b.
Proof.
  induction s as [|c s IH]; simpl; rewrite orb_true_iff, starts_with_spec.
  - split.
    + intros [[rest H]|H]; [|discriminate]. now exists "", rest.
    + intros ([|x a] & b & H); [left; now exists b | discriminate].
  - rewrite IH. split.
    + intros [[rest H]|(a & b & ->)]; [now exists "", rest|].
      now exists (String c a), b.
    + intros ([|x a] & b & H); [left; now exists b|].
      right. simpl in H. injection H as -> ->. now exists a, b.
Qed.

Lemma replace_absent (pattern replacement s : string) :
  occurs pattern s = false -> replace pattern replacement s = s.
Proof.
  induction s as [|c s IH]; simpl; intros H; apply orb_false_iff in H as [H1 H2];
    rewrite H1; [reflexivity | now rewrite IH].
Qed.

(** The pattern [body +:+ c] begins in [pre +:+ body +:+ c +:+ post] right
    after [pre] and nowhere before. *)
Lemma replace_leftmost (body : string) (c : ascii) (replacement pre post : string) :
  occurs (body +:+ String c "") (pre +:+ body) = false ->
  replace (body +:+ String c "") replacement
          (pre +:+ (body +:+ String c "") +:+ post) =
    pre +:+ replacement +:+ post.
Proof.
  induction pre as [|a pre IH]; intros H.
  - simpl. rewrite replace_unfold.
    assert (E : starts_with (body +:+ String c "")
                  ((body +:+ String c "") +:+ post) = true).
    { apply starts_with_spec. now exists post. }
    rewrite E, skip_append. reflexivity.
  - simpl in H. apply orb_false_iff in H as [H1 H2].
    change (String a pre +:+ (body +:+ String c "") +:+ post)
      with (String a (pre +:+ (body +:+ String c "") +:+ post)).
    rewrite replace_unfold.
    assert (E : starts_with (body +:+ String c "")
                  (String a (pre +:+ (body +:+ String c "") +:+ post)) = false).
    { rewrite <- H1.
      change (String a (pre +:+ (body +:+ String c "") +:+ post))
        with (String a pre +:+ ((body +:+ String c "") +:+ post)).
      rewrite (append_assoc body), <- (append_assoc (String a pre) body).
      apply starts_with_long.
      simpl. rewrite !append_length. simpl. lia. }
    rewrite E, IH by exact H2. reflexivity.
Qed.

End Strings.

(** C6, as stated, fails in both halves: a name that does not end in [" Mix"]
    is changed, and a name that ends in [" Mix"] loses an earlier [" Mix"] and
    keeps the trailing one. *)
Lemma cleanName_is_not_suffix_stripping :
  (cleanName (named "Daily Mix 1") = "Daily 1" /\
   (forall pre, "Daily Mix 1" <> pre +:+ " Mix") /\
   cleanName (named "Daily Mix 1") <> "Daily Mix 1") /\
  (cleanName (named "Club Mix Mega Mix") = "Club Mega Mix" /\
   "Club Mix Mega Mix" = "Club Mix Mega" +:+ " Mix" /\
   cleanName (named "Club Mix Mega Mix") <> "Club Mix Mega").
Proof.
  split; split; try reflexivity; split; try reflexivity; try discriminate.
  intros pre H.
  repeat (destruct pre as [|? pre]; simpl in H;
          [discriminate H | injection H as _ H]).
  destruct pre; discriminate H.
Qed.

(** C6 (amended): [cleanName] is the name with its leftmost occurrence of
    [" Mix"] removed, wherever it stands; so the trailing [" Mix"] is removed
    when the name has no earlier one, and a name without [" Mix"] is kept. *)
Theorem cleanName_removes_leftmost_Mix (p : PlaylistEntry) :
  (forall pre post,
      name p = pre +:+ " Mix" +:+ post ->
      occurs " Mix" (pre +:+ " Mi") = false ->
      cleanName p = pre +:+ post) /\
  (forall pre,
      name p = pre +:+ " Mix" ->
      occurs " Mix" (pre +:+ " Mi") = false ->
      cleanName p = pre) /\
  (occurs " Mix" (name p) = false -> cleanName p = name p).
Proof.
  assert (G : forall pre post,
      name p = pre +:+ " Mix" +:+ post ->
      occurs " Mix" (pre +:+ " Mi") = false ->
      cleanName p = pre +:+ post).
  { intros pre post Hn Ho. unfold cleanName. rewrite Hn.
    apply (replace_leftmost " Mi" "x" "" pre post Ho). }
  split; [exact G|]. split.
  - intros pre Hn Ho.
    rewrite (G pre "").
    + clear. induction pre as [|a pre IH]; simpl; [reflexivity | now rewrite IH].
    + rewrite Hn. reflexivity.
    + exact Ho.
  - intros Ho. unfold cleanName. now apply replace_absent.
Qed.

Lemma cleanName_removes_leftmost_Mix_witness :
  (name (named "Daily Mix 1") = "Daily" +:+ " Mix" +:+ " 1" /\
   occurs " Mix" ("Daily" +:+ " Mi") = false /\
   cleanName (named "Daily Mix 1") = "Daily" +:+ " 1") /\
  (name (named "Focus Mix") = "Focus" +:+ " Mix" /\
   occurs " Mix" ("Focus" +:+ " Mi") = false /\
   cleanName (named "Focus Mix") = "Focus") /\
  (occurs " Mix" (name (named "Remix")) = false /\
   cleanName (named "Remix") = name (named "Remix")).
Proof.
  split; [|split].
  - split; [reflexivity|]. split; [reflexivity|].
    apply (proj1 (cleanName_removes_leftmost_Mix (named "Daily Mix 1")) "Daily" " 1");
      reflexivity.
  - split; [reflexivity|]. split; [reflexivity|].
    apply (proj1 (proj2 (cleanName_removes_leftmost_Mix (named "Focus Mix"))) "Focus");
      reflexivity.
  - split; [reflexivity|].
    apply (proj2 (proj2 (cleanName_removes_leftmost_Mix (named "Remix"))));
      reflexivity.
Defined.

(** The pieces of a uri: everything up to a colon adds pieces in front and
    leaves the pieces of the rest. *)
Lemma split_append (sep : ascii) (pre s : string) :
  exists pieces,
    split sep (pre +:+ String sep s) = pieces ++ split sep s /\ pieces <> [].
Proof.
  induction pre as [|c pre (pieces & IH & Hne)]; simpl.
  - rewrite Ascii.eqb_refl. now exists [""].
  - destruct (Ascii.eqb c sep).
    + exists ("" :: pieces). now rewrite IH.
    + rewrite IH. destruct pieces as [|piece pieces]; [congruence|].
      now exists (String c piece :: pieces).
Qed.

Lemma split_without_separator (sep : ascii) (s : string) :
  occurs (String sep "") s = false -> split sep s = [s].
Proof.
  induction s as [|c s IH]; simpl; [reflexivity|].
  intros H. apply orb_false_iff in H as [H1 H2].
  rewrite andb_true_r, Ascii.eqb_sym in H1. now rewrite H1, IH.
Qed.

(** The url ends with what follows the last colon of the uri. *)
Lemma urlFromUri_after_last_colon (p : PlaylistEntry) (pre id : string) :
  uri p = pre +:+ ":" +:+ id ->
  occurs ":" id = false ->
  urlFromUri p = "https://open.spotify.com/playlist/" +:+ id.
Proof.
  intros Hu Hid. unfold urlFromUri, pop_text. rewrite Hu.
  change (":" +:+ id) with (String ":" id).
  destruct (split_append ":" pre id) as (pieces & -> & _).
  rewrite (split_without_separator ":" id Hid), last_snoc. reflexivity.
Qed.


(** ** C8: the empty collection *)

(** C8: on the empty collection the selector returns [null], and the run
    logs one line and returns normally; the only events are the read and the
    log line, and the database object and the file are as they were. *)
Theorem empty_collection_is_a_no_op (env : Env) (dryRun : bool) (w w1 : World) :
  read w = (Return tt, w1) ->
  data w1 = Some (mkDatabase []) ->
  getLowestPostedCountPlaylist (max_arguments env) (random env) w1 = (Return None, w1) /\
  postRandomPlaylist env dryRun w =
    (Return tt,
     mkWorld (Some (mkDatabase [])) (disk w)
       (trace w ++ [FileRead; ConsoleLog ["No playlists available to post."]])).
Proof.
  intros Hread Hd.
  apply read_inv in Hread as [Hdisk ->].
  split.
  - now rewrite (getLowest_fits _ _ _ _ Hd (fits_empty _)).
  - rewrite (run_nothing env w Hdisk _ Hd (fits_empty _) dryRun (selection_empty _)).
    unfold logged. rewrite Hd, after_read_disk, after_read_trace, <- app_assoc.
    reflexivity.
Qed.

Lemma empty_collection_is_a_no_op_witness :
  read (fresh Missing) = (Return tt, fresh Missing +> [FileRead]) /\
  data (fresh Missing +> [FileRead]) = Some (mkDatabase []) /\
  getLowestPostedCountPlaylist (max_arguments accepting_env) (random accepting_env) (fresh Missing +> [FileRead]) =
    (Return None, fresh Missing +> [FileRead]) /\
  postRandomPlaylist accepting_env false (fresh Missing) =
    (Return tt,
     mkWorld (Some (mkDatabase [])) (disk (fresh Missing))
       (trace (fresh Missing) ++
        [FileRead; ConsoleLog ["No playlists available to post."]])).
Proof.
  split; [reflexivity|]. split; [reflexivity|].
  apply (empty_collection_is_a_no_op accepting_env false (fresh Missing)
           (fresh Missing +> [FileRead])); reflexivity.
Defined.

(** ** C9: growth of the counts *)

Section Growth.









End Growth.



(** ** C10: an unknown uri *)

(** C10: on a loaded collection, [incrementPostedCount] with a uri that no
    record has returns with the world as it was: same collection, same file,
    no event. *)
Theorem increment_unknown_uri_is_a_no_op
    (ok : bool) (playlistUri : string) (w : World) (d : Database) :
  data w = Some d ->
  (forall p, p ∈ playlists d -> uri p <> playlistUri) ->
  incrementPostedCount ok playlistUri w = (Return tt, w).
Proof.
  intros Hd Hnone. apply (increment_not_found ok playlistUri w d Hd).
  apply list_find_None, Forall_forall. exact Hnone.
Qed.

Lemma increment_unknown_uri_is_a_no_op_witness :
  data sample_world = Some sample_db /\
  (forall p, p ∈ playlists sample_db -> uri p <> "spotify:playlist:zz") /\
  incrementPostedCount true "spotify:playlist:zz" sample_world = (Return tt, sample_world).
Proof.
  assert (H : forall p, p ∈ playlists sample_db -> uri p <> "spotify:playlist:zz").
  { intros p Hin.
    repeat (apply elem_of_cons in Hin as [->|Hin]; [discriminate|]).
    inversion Hin. }
  split; [reflexivity|]. split; [exact H|].
  apply (increment_unknown_uri_is_a_no_op true "spotify:playlist:zz"
           sample_world sample_db eq_refl H).
Defined.

(** * Further properties of the code *)

(** ** The paths of a run *)

Lemma new_events_app (w w' : World) (evs : list Event) :
  trace w' = trace w ++ evs -> new_events w w' = evs.
Proof. intros H. unfold new_events. rewrite H. apply drop_app_length. Qed.

(** Every run next to such a file follows one of the seven paths. *)
Lemma run_path_complete (env : Env) (dryRun : bool) (w : World) :
  run_path env dryRun w (fst (postRandomPlaylist env dryRun w))
                        (snd (postRandomPlaylist env dryRun w)).
Proof.
  destruct (disk w) as [| |d0] eqn:Hdisk.
  2: { rewrite (run_read_failure env w dryRun Hdisk). now constructor. }
  all: assert (Hok : disk w <> Unreadable) by congruence.
  all: destruct (data (after_read w)) as [d|] eqn:Hd;
    [| rewrite (run_unloaded env w Hok dryRun Hd); now constructor].
  all: destruct (fits (max_arguments env) d) eqn:Hfit;
    [| rewrite (run_too_many env w Hok d Hd dryRun Hfit);
       now apply (path_too_many _ _ _ d)].
  all: destruct (selection (random env) d) as [p|] eqn:Hsel;
    [| rewrite (run_nothing env w Hok d Hd Hfit dryRun Hsel);
       now apply (path_nothing _ _ _ d)].
  all: destruct dryRun;
    [rewrite (run_dry env w Hok d Hd Hfit p Hsel); now apply (path_dry _ _ _ d p)|].
  all: destruct (statuses_create env (statusText p)) as [|id] eqn:Hapi;
    [rewrite (run_rejected env w Hok d Hd Hfit p Hsel Hapi);
     now apply (path_rejected _ _ _ d p)|].
  all: destruct (selection_member _ _ _ Hsel) as [Hin _];
    destruct (find_own_uri (playlists d) p Hin) as (i & q & Hf & _ & _);
    rewrite (run_posted env w Hok d Hd Hfit p Hsel id i q Hapi Hf);
    pose proof (path_posted env false w d p id i q Hok Hd Hfit Hsel eq_refl Hapi Hf) as P;
    rewrite after_read_trace;
    destruct (write_succeeds env); simpl in *;
    rewrite <- app_assoc; exact P.
Qed.

(** ** Selection among ties *)

Lemma least_of_minimal (ps : list PlaylistEntry) (p : PlaylistEntry) :
  p ∈ ps ->
  (forall q, q ∈ ps -> effective_count p <= effective_count q) ->
  least (map effective_count ps) = Num (effective_count p).
Proof.
  intros Hin Hmin. destruct ps as [|p0 ps]; [inversion Hin|].
  destruct (least_cons (effective_count p0) (map effective_count ps))
    as (m & Hm & Hm_in & Hle).
  change (effective_count p0 :: map effective_count ps)
    with (map effective_count (p0 :: ps)) in Hm, Hm_in, Hle.
  rewrite Hm. f_equal.
  apply list_elem_of_fmap in Hm_in as (q & -> & Hq).
  specialize (Hmin q Hq).
  assert (effective_count q <= effective_count p).
  { apply Hle, list_elem_of_fmap. now exists p. }
  lia.
Qed.

Lemma floor_scaled_hits (k n : nat) :
  (k < n)%nat -> floor_scaled (mkRandom k (n - k - 1)) n = k.
Proof.
  intros H. unfold floor_scaled; simpl.
  replace (k + (n - k - 1) + 1)%nat with n by lia.
  apply Nat.div_mul. lia.
Qed.

(** X1: on a loaded collection that has no more records than the engine
    accepts arguments in one call, the records
    [getLowestPostedCountPlaylist] can return, over all draws of
    [Math.random], are exactly the records of the collection whose effective
    count is minimal: each of them is returned for some draw, and nothing
    else ever is. *)
Theorem selectable_records_are_the_minimal_ones
    (limit : N) (w : World) (d : Database) (p : PlaylistEntry) :
  data w = Some d ->
  (N.of_nat (length (playlists d)) <= limit)%N ->
  (exists r, getLowestPostedCountPlaylist limit r w = (Return (Some p), w)) <->
  (p ∈ playlists d /\
   forall q, q ∈ playlists d -> effective_count p <= effective_count q).
Proof.
  intros Hd Hfit. apply fits_iff in Hfit. split.
  - intros [r Hr]. rewrite (getLowest_fits limit r w d Hd Hfit) in Hr.
    assert (Hsel : selection r d = Some p) by congruence.
    split; [apply (selection_member r d p Hsel)|].
    intros q. now apply (selection_minimal r).
  - intros [Hin Hmin].
    pose proof (least_of_minimal (playlists d) p Hin Hmin) as Hm.
    assert (Hc : p ∈ filter (fun x => Num (effective_count x) =
                    least (map effective_count (playlists d))) (playlists d)).
    { apply list_elem_of_filter. split; [now rewrite Hm | exact Hin]. }
    apply list_elem_of_lookup_1 in Hc as [k Hk].
    pose proof (lookup_lt_Some _ _ _ Hk) as Hlt.
    eexists (mkRandom k _).
    rewrite (getLowest_fits limit _ w d Hd Hfit). unfold selection.
    rewrite (floor_scaled_hits k _ Hlt), Hk. reflexivity.
Qed.

Lemma selectable_records_are_the_minimal_ones_witness :
  data sample_world = Some sample_db /\
  (N.of_nat (length (playlists sample_db)) <= node_arguments)%N /\
  ((exists r, getLowestPostedCountPlaylist node_arguments r sample_world =
                (Return (Some sample_selected), sample_world)) <->
   (sample_selected ∈ playlists sample_db /\
    forall q, q ∈ playlists sample_db ->
              effective_count sample_selected <= effective_count q)).
Proof.
  assert (H : (N.of_nat (length (playlists sample_db)) <= node_arguments)%N)
    by (vm_compute; discriminate).
  split; [reflexivity|]. split; [exact H|].
  apply (selectable_records_are_the_minimal_ones node_arguments sample_world
           sample_db sample_selected eq_refl H).
Defined.

(** ** [incrementPostedCount] *)

Lemma first_match_found (ps : list PlaylistEntry) (u : string) (i : nat)
    (q : PlaylistEntry) :
  ps !! i = Some q -> uri q = u ->
  (forall j p, (j < i)%nat -> ps !! j = Some p -> uri p <> u) ->
  list_find (fun x => uri x = u) ps = Some (i, q).
Proof.
  intros Hi Hu Hfirst. apply list_find_Some.
  split; [exact Hi|]. split; [exact Hu|].
  intros j y Hj Hlt. now apply (Hfirst j y).
Qed.



(** X3: calls of [incrementPostedCount] with one uri add up as long as the
    count stays where [+ 1] is exact on doubles: if the first record with
    that uri has a count of at least -2^53 and the count plus the number [n]
    of calls is at most 2^53, then after the [n] calls, whatever the outcome
    of each write, its in-memory count is [n] higher, its other fields are
    kept, and every other record is as it was. *)
Theorem repeated_increments_add_up
    (oks : list bool) (u : string) (w : World) (d : Database) (i : nat)
    (q : PlaylistEntry) :
  data w = Some d ->
  playlists d !! i = Some q -> uri q = u ->
  (forall j p, (j < i)%nat -> playlists d !! j = Some p -> uri p <> u) ->
  (- 2 ^ 53 <= effective_count q)%Z ->
  (effective_count q + Z.of_nat (length oks) <= 2 ^ 53)%Z ->
  exists d' q',
    data (increments oks u w) = Some d' /\
    playlists d' !! i = Some q' /\
    name q' = name q /\ uri q' = uri q /\ imageUrl q' = imageUrl q /\
    artistNames q' = artistNames q /\
    effective_count q' = effective_count q + Z.of_nat (length oks) /\
    (forall j, j <> i -> playlists d' !! j = playlists d !! j).
Proof.
  revert w d q. induction oks as [|ok oks IH];
    intros w d q Hd Hi Hu Hfirst Hlo Hhi.
  - exists d, q. simpl. repeat split; try assumption. lia.
  - pose proof (first_match_found _ _ _ _ Hi Hu Hfirst) as Hf.
    simpl length in Hhi.
    assert (Hone : effective_count (bump q) = effective_count q + 1)
      by (apply bump_count_exact; lia).
    simpl increments.
    rewrite (increment_found ok u w d Hd i q Hf).
    assert (Hlt : (i < length (playlists d))%nat) by (eapply lookup_lt_Some; eauto).
    destruct (IH (snd (if ok
                then (Return tt,
                      mkWorld (Some (mkDatabase (<[i := bump q]> (playlists d))))
                        (Content (mkDatabase (<[i := bump q]> (playlists d))))
                        (trace w ++ [FileWrite (mkDatabase (<[i := bump q]> (playlists d))) true]))
                else (Throw WriteFailure,
                      mkWorld (Some (mkDatabase (<[i := bump q]> (playlists d))))
                        (disk w)
                        (trace w ++ [FileWrite (mkDatabase (<[i := bump q]> (playlists d))) false]))))
                (mkDatabase (<[i := bump q]> (playlists d))) (bump q))
      as (d' & q' & Hd' & Hi' & Hn & Huri & Him & Har & Hc & Hothers).
    + now destruct ok.
    + simpl. now apply list_lookup_insert_eq.
    + exact Hu.
    + intros j p Hj Hp. simpl in Hp.
      rewrite list_lookup_insert_ne in Hp by lia. now apply (Hfirst j p).
    + lia.
    + lia.
    + exists d', q'. split; [exact Hd'|]. split; [exact Hi'|].
      repeat split; try assumption.
      * rewrite Hc, Hone. simpl length. lia.
      * intros j Hj. rewrite (Hothers j Hj). simpl.
        apply list_lookup_insert_ne. congruence.
Qed.

Lemma repeated_increments_add_up_witness :
  data (fresh_with twins_db) = Some twins_db /\
  playlists twins_db !! 1%nat =
    Some (mkPlaylistEntry "Two" "spotify:playlist:u2" "" [] None) /\
  (forall j p, (j < 1)%nat -> playlists twins_db !! j = Some p ->
               uri p <> "spotify:playlist:u2") /\
  (- 2 ^ 53 <= 0)%Z /\ (0 + Z.of_nat 3 <= 2 ^ 53)%Z /\
  exists d' q',
    data (increments [true; false; true] "spotify:playlist:u2"
            (fresh_with twins_db)) = Some d' /\
    playlists d' !! 1%nat = Some q' /\
    name q' = "Two" /\ uri q' = "spotify:playlist:u2" /\ imageUrl q' = "" /\
    artistNames q' = [] /\
    effective_count q' = 0 + Z.of_nat 3 /\
    (forall j, j <> 1%nat -> playlists d' !! j = playlists twins_db !! j).
Proof.
  assert (H : forall j p, (j < 1)%nat -> playlists twins_db !! j = Some p ->
                          uri p <> "spotify:playlist:u2").
  { intros j p Hj Hp. destruct j as [|j]; [|lia].
    simpl in Hp. injection Hp as <-. discriminate. }
  assert (Hlo : (- 2 ^ 53 <= 0)%Z) by (vm_compute; discriminate).
  assert (Hhi : (0 + Z.of_nat 3 <= 2 ^ 53)%Z) by (vm_compute; discriminate).
  split; [reflexivity|]. split; [reflexivity|]. split; [exact H|].
  split; [exact Hlo|]. split; [exact Hhi|].
  apply (repeated_increments_add_up [true; false; true] "spotify:playlist:u2"
           (fresh_with twins_db) twins_db 1
           (mkPlaylistEntry "Two" "spotify:playlist:u2" "" [] None)
           eq_refl eq_refl eq_refl H Hlo Hhi).
Defined.




(** ** The status text, in general *)

Lemma last_colon (sep : ascii) (s : string) :
  occurs (String sep "") s = true ->
  exists pre id, s = pre +:+ String sep id /\ occurs (String sep "") id = false.
Proof.
  induction s as [|c s IH]; simpl; [discriminate|].
  destruct (occurs (String sep "") s) eqn:E.
  - intros _. destruct (IH eq_refl) as (pre & id & -> & Hid).
    now exists (String c pre), id.
  - rewrite orb_false_r, andb_true_r. intros H. apply Ascii.eqb_eq in H as <-.
    now exists "", s.
Qed.

(** X5: the url of the status is the fixed base followed by the longest
    colon-free end of the uri: the whole uri when it has no colon, and what
    follows its last colon otherwise (nothing, when the uri ends in a colon). *)
Theorem url_id_is_the_colon_free_end (p : PlaylistEntry) :
  exists pre id,
    uri p = pre +:+ id /\
    occurs ":" id = false /\
    (pre = "" \/ exists pre', pre = pre' +:+ ":") /\
    urlFromUri p = "https://open.spotify.com/playlist/" +:+ id.
Proof.
  destruct (occurs ":" (uri p)) eqn:E.
  - destruct (last_colon ":" (uri p) E) as (pre' & id & Hu & Hid).
    exists (pre' +:+ ":"), id. split.
    { rewrite Hu, append_assoc. reflexivity. }
    split; [exact Hid|]. split; [right; now exists pre'|].
    apply (urlFromUri_after_last_colon p pre' id); [|exact Hid].
    rewrite Hu. reflexivity.
  - exists "", (uri p). split; [reflexivity|]. split; [exact E|].
    split; [now left|].
    unfold urlFromUri, pop_text.
    now rewrite (split_without_separator ":" (uri p) E).
Qed.

(** X6: whenever the name contains [" Mix"], [cleanName] is the name with
    exactly one occurrence taken out, the leftmost one; whatever follows it,
    further occurrences included, is kept. *)
Theorem cleanName_takes_out_one_occurrence (p : PlaylistEntry) :
  occurs " Mix" (name p) = true ->
  exists pre post,
    name p = pre +:+ " Mix" +:+ post /\
    occurs " Mix" (pre +:+ " Mi") = false /\
    cleanName p = pre +:+ post /\
    (String.length (cleanName p) + 4 = String.length (name p))%nat.
Proof.
  unfold cleanName. generalize (name p). clear p.
  assert (G : forall s, occurs " Mix" s = true ->
            exists pre post, s = pre +:+ " Mix" +:+ post /\
                             occurs " Mix" (pre +:+ " Mi") = false).
  { induction s as [|c s IH]; [discriminate|].
    intros H. change (occurs " Mix" (String c s))
      with (starts_with " Mix" (String c s) || occurs " Mix" s) in H.
    destruct (starts_with " Mix" (String c s)) eqn:E.
    - apply starts_with_spec in E as [post E]. now exists "", post.
    - simpl in H. destruct (IH H) as (pre & post & -> & Hno).
      exists (String c pre), post. split; [reflexivity|].
      change (occurs " Mix" (String c pre +:+ " Mi"))
        with (starts_with " Mix" (String c pre +:+ " Mi") ||
              occurs " Mix" (pre +:+ " Mi")).
      rewrite Hno, orb_false_r.
      change (String c (pre +:+ " Mix" +:+ post))
        with (String c pre +:+ (" Mi" +:+ ("x" +:+ post))) in E.
      rewrite <- (append_assoc (String c pre) " Mi") in E.
      rewrite starts_with_long in E; [exact E|].
      simpl. rewrite append_length. simpl. lia. }
  intros s H. destruct (G s H) as (pre & post & -> & Hno).
  exists pre, post. split; [reflexivity|]. split; [exact Hno|].
  assert (R : replace " Mix" "" (pre +:+ " Mix" +:+ post) = pre +:+ post)
    by apply (replace_leftmost " Mi" "x" "" pre post Hno).
  rewrite R. split; [reflexivity|].
  rewrite !append_length. simpl. lia.
Qed.

Lemma cleanName_takes_out_one_occurrence_witness :
  occurs " Mix" (name (named "Club Mix Mega Mix")) = true /\
  exists pre post,
    name (named "Club Mix Mega Mix") = pre +:+ " Mix" +:+ post /\
    occurs " Mix" (pre +:+ " Mi") = false /\
    cleanName (named "Club Mix Mega Mix") = pre +:+ post /\
    (String.length (cleanName (named "Club Mix Mega Mix")) + 4 =
     String.length (name (named "Club Mix Mega Mix")))%nat.
Proof.
  split; [reflexivity|].
  apply (cleanName_takes_out_one_occurrence (named "Club Mix Mega Mix")).
  reflexivity.
Defined.

(** ** What one run does *)

Lemma new_events_logged (w : World) (evs : list Event) :
  new_events w (w +> evs) = evs.
Proof. now apply new_events_app. Qed.

Lemma new_events_after_read (w : World) : new_events w (after_read w) = [FileRead].
Proof. apply new_events_app, after_read_trace. Qed.

Lemma new_events_after_read_logged (w : World) (evs : list Event) :
  new_events w (after_read w +> evs) = FileRead :: evs.
Proof.
  apply new_events_app. simpl. rewrite after_read_trace, <- app_assoc. reflexivity.
Qed.

Lemma new_events_mk (w : World) (dt : option Database) (dk : Disk)
    (evs : list Event) :
  new_events w (mkWorld dt dk (trace w ++ evs)) = evs.
Proof. now apply new_events_app. Qed.

(** The run, split into outcome and final world, with its path. *)
Lemma run_path_of (env : Env) (dryRun : bool) (w : World) :
  exists o w',
    postRandomPlaylist env dryRun w = (o, w') /\ run_path env dryRun w o w'.
Proof.
  exists (fst (postRandomPlaylist env dryRun w)),
         (snd (postRandomPlaylist env dryRun w)).
  split; [now destruct (postRandomPlaylist env dryRun w) | apply run_path_complete].
Qed.

Ltac events :=
  rewrite ?new_events_logged, ?new_events_after_read,
          ?new_events_after_read_logged, ?new_events_mk.

Ltac not_listed H :=
  repeat (apply elem_of_cons in H as [H|H]; [try discriminate H|]);
  try (apply elem_of_nil in H; contradiction).

(** X7: a dry run shows the status the real run would send: with the same
    file, database object and random draw, the dry run logs a text under
    ["Status Text:"] exactly when the real run calls the API with that text. *)
Theorem dry_run_previews_the_status (env : Env) (w : World) (t : string) :
  ConsoleLog ["Status Text:"; t] ∈
    new_events w (snd (postRandomPlaylist env true w)) <->
  StatusCreate t ∈ new_events w (snd (postRandomPlaylist env false w)).
Proof.
  destruct (run_path_of env true w) as (od & wd & -> & Pd).
  destruct (run_path_of env false w) as (or & wr & -> & Pr).
  simpl.
  destruct Pd as [? | ? ? | d ? ? ? | d ? ? ? ? | d p ? Hd ? Hs ?
                 | d p ? ? ? ? ? ? | d p ? ? ? ? ? ? ? ? ? ?];
    destruct Pr as [? | ? ? | d' ? ? ? | d' ? ? ? ? | d' p' ? ? ? ? ?
                   | d' p' ? Hd' ? Hs' ? ? | d' p' ? ? ? ? Hd' ? Hs' ? ? ?];
    try congruence; events.
  - split; intros Hin; not_listed Hin.
  - split; intros Hin; not_listed Hin.
  - split; intros Hin; not_listed Hin.
  - split; intros Hin; not_listed Hin.
  - assert (p' = p) as -> by congruence.
    split; intros Hin; not_listed Hin.
    + injection Hin as ->. right; left.
    + injection Hin as ->. right; right; left.
  - assert (p' = p) as -> by congruence.
    split; intros Hin.
    + not_listed Hin. injection Hin as ->. right; left.
    + apply elem_of_cons in Hin as [Hin|Hin]; [discriminate|].
      apply elem_of_cons in Hin as [Hin|Hin];
        [injection Hin as ->; right; right; left|].
      exfalso. destruct (write_succeeds env); simpl in Hin; not_listed Hin.
Qed.

Lemma dry_run_previews_the_status_witness :
  ConsoleLog ["Status Text:"; statusText sample_selected] ∈
    new_events (fresh (Content sample_db))
      (snd (postRandomPlaylist accepting_env true (fresh (Content sample_db)))) /\
  StatusCreate (statusText sample_selected) ∈
    new_events (fresh (Content sample_db))
      (snd (postRandomPlaylist accepting_env false (fresh (Content sample_db)))).
Proof.
  assert (H : ConsoleLog ["Status Text:"; statusText sample_selected] ∈
    new_events (fresh (Content sample_db))
      (snd (postRandomPlaylist accepting_env true (fresh (Content sample_db))))).
  { right; right; left. }
  split; [exact H|].
  apply (proj1 (dry_run_previews_the_status accepting_env
                  (fresh (Content sample_db)) (statusText sample_selected))).
  exact H.
Defined.

(** X8: the file is written only after an accepted status.  If a run writes
    at all, it is a real run, its events are the read, one call of the API
    whose reply was an acceptance, the success line, and that one write of
    the collection now in memory, followed at most by the logged write
    failure. *)
Theorem write_only_after_accepted_status
    (env : Env) (dryRun : bool) (w : World) (dw : Database) (ok : bool) :
  FileWrite dw ok ∈ new_events w (snd (postRandomPlaylist env dryRun w)) ->
  dryRun = false /\ ok = write_succeeds env /\
  fst (postRandomPlaylist env dryRun w) = Return tt /\
  data (snd (postRandomPlaylist env dryRun w)) = Some dw /\
  exists s id,
    statuses_create env s = Created id /\
    new_events w (snd (postRandomPlaylist env dryRun w)) =
      [FileRead; StatusCreate s;
       ConsoleLog ["Posted successfully:"; default "" id];
       FileWrite dw ok] ++
      (if ok then [] else [ConsoleError "Error posting to Mastodon:" WriteFailure]).
Proof.
  destruct (run_path_of env dryRun w) as (o & w' & -> & P). simpl.
  destruct P as [? | ? ? | d ? ? ? | d ? ? ? ? | d p ? ? ? ? ? | d p ? ? ? ? ? ?
                | d p id i q ? ? ? ? ? Hapi ?];
    events; intros Hin; try (not_listed Hin; fail).
  assert (E : dw = mkDatabase (<[i := bump q]> (playlists d)) /\
              ok = write_succeeds env).
  { do 3 (apply elem_of_cons in Hin as [Hin|Hin]; [discriminate|]).
    apply elem_of_cons in Hin as [Hin|Hin]; [injection Hin as -> ->; now split|].
    exfalso. destruct (write_succeeds env); simpl in Hin; not_listed Hin. }
  destruct E as [-> ->].
  repeat split; try assumption. now exists (statusText p), id.
Qed.

Lemma write_only_after_accepted_status_witness :
  FileWrite sample_db_bumped false ∈
    new_events (fresh (Content sample_db))
      (snd (postRandomPlaylist failing_write_env false (fresh (Content sample_db)))) /\
  false = write_succeeds failing_write_env /\
  data (snd (postRandomPlaylist failing_write_env false (fresh (Content sample_db)))) =
    Some sample_db_bumped.
Proof.
  assert (H : FileWrite sample_db_bumped false ∈
    new_events (fresh (Content sample_db))
      (snd (postRandomPlaylist failing_write_env false (fresh (Content sample_db))))).
  { right; right; right; left. }
  split; [exact H|].
  destruct (write_only_after_accepted_status failing_write_env false
              (fresh (Content sample_db)) sample_db_bumped false H)
    as (_ & Hok & _ & Hd & _).
  split; [exact Hok | exact Hd].
Defined.

(** X9: a run that throws has done nothing but read.  Whatever the error,
    its only event is the read of the file, so no status was sent and nothing
    was written; the file is as before, and the data is what the read left:
    the data from before or the content of the file.  The error is never the
    rejection of a status nor the failure of a write, which end in the
    [catch] of the run. *)
Theorem a_throwing_run_only_read
    (env : Env) (dryRun : bool) (w : World) (e : exn) :
  fst (postRandomPlaylist env dryRun w) = Throw e ->
  new_events w (snd (postRandomPlaylist env dryRun w)) = [FileRead] /\
  disk (snd (postRandomPlaylist env dryRun w)) = disk w /\
  (data (snd (postRandomPlaylist env dryRun w)) = data w \/
   exists d, disk w = Content d /\
             data (snd (postRandomPlaylist env dryRun w)) = Some d) /\
  e <> ApiFailure /\ e <> WriteFailure.
Proof.
  destruct (run_path_of env dryRun w) as (o & w' & -> & P). simpl.
  assert (Hdata : data (after_read w) = data w \/
                  exists d, disk w = Content d /\ data (after_read w) = Some d).
  { rewrite after_read_data. destruct (disk w) as [| |d]; [now left..|].
    right. now exists d. }
  destruct P; intros Hthrow; try discriminate Hthrow;
    injection Hthrow as <-; events; rewrite ?after_read_disk;
    (split; [reflexivity|]); (split; [reflexivity|]);
    (split; [|split; discriminate]); try exact Hdata.
  now left.
Qed.

Lemma a_throwing_run_only_read_witness :
  fst (postRandomPlaylist accepting_env false (fresh Unreadable)) = Throw ReadFailure /\
  new_events (fresh Unreadable)
    (snd (postRandomPlaylist accepting_env false (fresh Unreadable))) = [FileRead] /\
  disk (snd (postRandomPlaylist accepting_env false (fresh Unreadable))) =
    disk (fresh Unreadable) /\
  (data (snd (postRandomPlaylist accepting_env false (fresh Unreadable))) =
     data (fresh Unreadable) \/
   exists d, disk (fresh Unreadable) = Content d /\
             data (snd (postRandomPlaylist accepting_env false (fresh Unreadable))) =
               Some d) /\
  ReadFailure <> ApiFailure /\ ReadFailure <> WriteFailure.
Proof.
  split; [reflexivity|].
  apply (a_throwing_run_only_read accepting_env false (fresh Unreadable) ReadFailure).
  reflexivity.
Defined.

(** ** Rotation over many runs *)

Lemma uris_after_bump (ps : list PlaylistEntry) (i : nat) (q : PlaylistEntry) :
  ps !! i = Some q -> map uri (<[i := bump q]> ps) = map uri ps.
Proof.
  revert i. induction ps as [|p ps IH]; intros i Hi; [reflexivity|].
  destruct i as [|i]; simpl in *.
  - now injection Hi as ->.
  - now rewrite IH.
Qed.

Lemma elem_of_bumped (ps : list PlaylistEntry) (i : nat) (q a : PlaylistEntry) :
  a ∈ <[i := bump q]> ps -> a = bump q \/ a ∈ ps.
Proof.
  intros H. apply list_elem_of_lookup_1 in H as [j Hj].
  destruct (decide (i = j)) as [->|Hne].
  - left. pose proof (lookup_lt_Some _ _ _ Hj) as Hlt.
    rewrite length_insert in Hlt.
    rewrite list_lookup_insert_eq in Hj by exact Hlt. congruence.
  - right. rewrite list_lookup_insert_ne in Hj by exact Hne.
    now apply list_elem_of_lookup_2 in Hj.
Qed.

Lemma room_weaken (n : nat) (ps : list PlaylistEntry) :
  room_for (S n) ps -> room_for n ps.
Proof. intros H q Hq. destruct (H q Hq). split; lia. Qed.

Lemma room_exact (n : nat) (ps : list PlaylistEntry) (q : PlaylistEntry) :
  room_for (S n) ps -> q ∈ ps -> effective_count (bump q) = effective_count q + 1.
Proof.
  intros H Hq. destruct (H q Hq). apply bump_count_exact. lia.
Qed.

Lemma room_after_bump (n : nat) (ps : list PlaylistEntry) (i : nat)
    (q : PlaylistEntry) :
  room_for (S n) ps -> ps !! i = Some q -> room_for n (<[i := bump q]> ps).
Proof.
  intros H Hi a Ha.
  assert (Hq : q ∈ ps) by now apply list_elem_of_lookup_2 in Hi.
  apply elem_of_bumped in Ha as [->|Ha].
  - rewrite (room_exact n ps q H Hq). destruct (H q Hq). split; lia.
  - destruct (H a Ha). split; lia.
Qed.




Lemma level_db_room (n : nat) : (n <= 1000)%nat -> room_for n (playlists level_db).
Proof.
  intros Hn q Hq.
  repeat (apply elem_of_cons in Hq as [->|Hq]);
    try (apply elem_of_nil in Hq; contradiction);
    change (2 ^ 53)%Z with 9007199254740992%Z; unfold effective_count; simpl;
    split; lia.
Qed.


Lemma total_after_bump (ps : list PlaylistEntry) (i : nat) (q : PlaylistEntry) :
  ps !! i = Some q ->
  effective_count (bump q) = effective_count q + 1 ->
  total (<[i := bump q]> ps) = total ps + 1.
Proof.
  intros Hi Hone. revert i Hi. induction ps as [|p ps IH]; intros i Hi; [discriminate|].
  destruct i as [|i]; simpl in *.
  - injection Hi as ->. rewrite Hone. fold (total ps). lia.
  - fold (total (<[i := bump q]> ps)) (total ps). rewrite (IH i Hi). lia.
Qed.

Lemma completed_writes_app (a b : list Event) :
  completed_writes (a ++ b) = (completed_writes a + completed_writes b)%nat.
Proof.
  induction a as [|e a IH]; [reflexivity|].
  destruct e as [| dw [|] | | |]; simpl; rewrite IH; reflexivity.
Qed.

Lemma run_step_total (env : Env) (dryRun : bool) (w : World) (d : Database)
    (n : nat) :
  disk w = Content d -> room_for (S n) (playlists d) ->
  exists dd evs,
    disk (snd (postRandomPlaylist env dryRun w)) = Content dd /\
    trace (snd (postRandomPlaylist env dryRun w)) = trace w ++ evs /\
    total (playlists dd) = total (playlists d) + Z.of_nat (completed_writes evs) /\
    room_for n (playlists dd).
Proof.
  intros Hdisk Hroom.
  assert (Hdata : data (after_read w) = Some d)
    by (rewrite after_read_data, Hdisk; reflexivity).
  pose proof (room_weaken n _ Hroom) as Hweak.
  destruct (run_path_of env dryRun w) as (o & w' & -> & P). simpl.
  destruct P as [? | ? ? | d' ? ? ? | d' ? ? ? ? | d' p ? ? ? ? ? | d' p ? ? ? ? ? ?
                | d' p id i q ? Hd' ? Hsel ? ? Hf]; try congruence.
  1-4: exists d; eexists; simpl; rewrite ?after_read_disk, after_read_trace, <- ?app_assoc;
    (split; [exact Hdisk|]); (split; [reflexivity|]); (split; [simpl; lia | exact Hweak]).
  assert (d' = d) as -> by congruence.
  apply list_find_Some in Hf as (Hi & _ & _).
  assert (Hq : q ∈ playlists d) by now apply list_elem_of_lookup_2 in Hi.
  destruct (write_succeeds env); simpl.
  - eexists; eexists. split; [reflexivity|]. split; [reflexivity|]. split.
    + simpl. apply total_after_bump; [exact Hi|].
      now apply (room_exact n (playlists d)).
    + simpl. now apply room_after_bump.
  - exists d; eexists. split; [exact Hdisk|]. split; [reflexivity|].
    split; [simpl; lia | exact Hweak].
Qed.

(** X11: the counts in the file count the completed writes.  Next to a
    readable file whose counts the runs to come keep from -2^53 to 2^53,
    after any number of runs the sum of the effective counts in the file is
    the sum at the start plus the number of writes that succeeded during
    these runs. *)
Theorem file_total_counts_completed_writes
    (dryRun : bool) (envs : list Env) (w : World) (d : Database) :
  disk w = Content d ->
  room_for (length envs) (playlists d) ->
  exists d',
    disk (runs dryRun envs w) = Content d' /\
    total (playlists d') =
      total (playlists d) +
      Z.of_nat (completed_writes (new_events w (runs dryRun envs w))).
Proof.
  intros Hdisk Hroom.
  assert (G : exists d' evs,
    disk (runs dryRun envs w) = Content d' /\
    trace (runs dryRun envs w) = trace w ++ evs /\
    total (playlists d') = total (playlists d) + Z.of_nat (completed_writes evs)).
  { revert w d Hdisk Hroom.
    induction envs as [|env envs IH]; intros w d Hdisk Hroom; simpl.
    - exists d, []. rewrite app_nil_r. repeat split; [exact Hdisk | simpl; lia].
    - simpl length in Hroom.
      destruct (run_step_total env dryRun w d (length envs) Hdisk Hroom)
        as (dd & evs & Hdd & Htr & Htot & Hroom').
      destruct (IH _ dd Hdd Hroom') as (d' & evs' & Hd' & Htr' & Htot').
      exists d', (evs ++ evs'). split; [exact Hd'|]. split.
      + rewrite Htr', Htr, <- app_assoc. reflexivity.
      + rewrite completed_writes_app. lia. }
  destruct G as (d' & evs & Hd' & Htr & Htot).
  exists d'. split; [exact Hd'|]. now rewrite (new_events_app _ _ _ Htr).
Qed.

Lemma file_total_counts_completed_writes_witness :
  disk (fresh (Content level_db)) = Content level_db /\
  room_for (length [accepting_env; failing_write_env; rejecting_env; accepting_env])
    (playlists level_db) /\
  exists d',
    disk (runs false [accepting_env; failing_write_env; rejecting_env; accepting_env]
            (fresh (Content level_db))) = Content d' /\
    total (playlists d') =
      total (playlists level_db) +
      Z.of_nat (completed_writes
                  (new_events (fresh (Content level_db))
                     (runs false
                        [accepting_env; failing_write_env; rejecting_env; accepting_env]
                        (fresh (Content level_db))))).
Proof.
  assert (Hroom : room_for
            (length [accepting_env; failing_write_env; rejecting_env; accepting_env])
            (playlists level_db)).
  { apply level_db_room. simpl. lia. }
  split; [reflexivity|]. split; [exact Hroom|].
  apply (file_total_counts_completed_writes false
           [accepting_env; failing_write_env; rejecting_env; accepting_env]
           (fresh (Content level_db)) level_db eq_refl Hroom).
Defined.

(** ** The process *)

Lemma constructor_ok (proc : Process) (dsk : Disk) :
  falsy (MASTODON_URL proc) || falsy (MASTODON_ACCESS_TOKEN proc) = false ->
  PlaylistBot_new proc (boot dsk) = (Return tt, fresh dsk).
Proof. intros H. unfold PlaylistBot_new, bind; simpl. now rewrite H. Qed.

Lemma constructor_fails (proc : Process) (dsk : Disk) :
  falsy (MASTODON_URL proc) || falsy (MASTODON_ACCESS_TOKEN proc) = true ->
  PlaylistBot_new proc (boot dsk) =
    (Throw (Error "MASTODON_URL or MASTODON_ACCESS_TOKEN is not set in the environment variables"),
     fresh dsk).
Proof. intros H. unfold PlaylistBot_new, bind; simpl. now rewrite H. Qed.

Lemma main_configured (proc : Process) (env : Env) (dsk : Disk) :
  falsy (MASTODON_URL proc) || falsy (MASTODON_ACCESS_TOKEN proc) = false ->
  main proc env (boot dsk) =
    postRandomPlaylist env (bool_decide ("--dry-run" ∈ argv proc)) (fresh dsk).
Proof. intros H. unfold main, bind. now rewrite (constructor_ok proc dsk H). Qed.

Lemma main_unconfigured (proc : Process) (env : Env) (dsk : Disk) :
  falsy (MASTODON_URL proc) || falsy (MASTODON_ACCESS_TOKEN proc) = true ->
  main proc env (boot dsk) =
    (Throw (Error "MASTODON_URL or MASTODON_ACCESS_TOKEN is not set in the environment variables"),
     fresh dsk).
Proof. intros H. unfold main, bind. now rewrite (constructor_fails proc dsk H). Qed.

Lemma falsy_cases (proc : Process) :
  falsy (MASTODON_URL proc) || falsy (MASTODON_ACCESS_TOKEN proc) = true <->
  (MASTODON_URL proc = None \/ MASTODON_URL proc = Some "" \/
   MASTODON_ACCESS_TOKEN proc = None \/ MASTODON_ACCESS_TOKEN proc = Some "").
Proof.
  rewrite orb_true_iff.
  destruct (MASTODON_URL proc) as [[|? ?]|];
    destruct (MASTODON_ACCESS_TOKEN proc) as [[|? ?]|]; simpl;
    split; intros H; auto;
    repeat (destruct H as [H|H]; try discriminate H); auto.
Qed.

(** The errors [postRandomPlaylist] throws next to a file that is missing,
    unreadable or holds a [Database]. *)
Lemma thrown_errors (env : Env) (dryRun : bool) (w : World) (e : exn) :
  fst (postRandomPlaylist env dryRun w) = Throw e ->
  e = ReadFailure \/ e = Error "Database not loaded" \/ e = RangeError.
Proof.
  destruct (run_path_of env dryRun w) as (o & w' & -> & P). simpl.
  destruct P; intros Hthrow; try discriminate Hthrow;
    injection Hthrow as <-; auto.
Qed.

Lemma run_never_throws_config_error (env : Env) (dryRun : bool) (w : World) :
  fst (postRandomPlaylist env dryRun w) <>
    Throw (Error "MASTODON_URL or MASTODON_ACCESS_TOKEN is not set in the environment variables").
Proof.
  intros H. apply thrown_errors in H as [H|[H|H]]; discriminate H.
Qed.

(** X12: [main] fails with the configuration error exactly when
    [MASTODON_URL] or [MASTODON_ACCESS_TOKEN] is unset or empty; and when
    one is, [main] throws that error before any work: no event at all (the
    file is not read, no status is sent, nothing is written or logged by
    [main]) and the file as it was. *)
Theorem main_needs_both_credentials (proc : Process) (env : Env) (dsk : Disk) :
  (fst (main proc env (boot dsk)) =
     Throw (Error "MASTODON_URL or MASTODON_ACCESS_TOKEN is not set in the environment variables")
   <->
   (MASTODON_URL proc = None \/ MASTODON_URL proc = Some "" \/
    MASTODON_ACCESS_TOKEN proc = None \/ MASTODON_ACCESS_TOKEN proc = Some "")) /\
  ((MASTODON_URL proc = None \/ MASTODON_URL proc = Some "" \/
    MASTODON_ACCESS_TOKEN proc = None \/ MASTODON_ACCESS_TOKEN proc = Some "") ->
   fst (main proc env (boot dsk)) =
     Throw (Error "MASTODON_URL or MASTODON_ACCESS_TOKEN is not set in the environment variables") /\
   trace (snd (main proc env (boot dsk))) = [] /\
   disk (snd (main proc env (boot dsk))) = dsk).
Proof.
  rewrite <- falsy_cases.
  destruct (falsy (MASTODON_URL proc) || falsy (MASTODON_ACCESS_TOKEN proc)) eqn:E.
  - rewrite (main_unconfigured proc env dsk E). simpl.
    split; [split; reflexivity | intros _; repeat split].
  - rewrite (main_configured proc env dsk E). split; [split|]; intros H.
    + now apply run_never_throws_config_error in H.
    + discriminate H.
    + discriminate H.
Qed.

Lemma main_needs_both_credentials_witness :
  (MASTODON_URL unconfigured = None \/ MASTODON_URL unconfigured = Some "" \/
   MASTODON_ACCESS_TOKEN unconfigured = None \/
   MASTODON_ACCESS_TOKEN unconfigured = Some "") /\
  fst (main unconfigured accepting_env (boot (Content sample_db))) =
    Throw (Error "MASTODON_URL or MASTODON_ACCESS_TOKEN is not set in the environment variables") /\
  trace (snd (main unconfigured accepting_env (boot (Content sample_db)))) = [] /\
  disk (snd (main unconfigured accepting_env (boot (Content sample_db)))) =
    Content sample_db.
Proof.
  assert (H : MASTODON_URL unconfigured = None \/ MASTODON_URL unconfigured = Some "" \/
              MASTODON_ACCESS_TOKEN unconfigured = None \/
              MASTODON_ACCESS_TOKEN unconfigured = Some "").
  { right; right; left. reflexivity. }
  split; [exact H|].
  apply (proj2 (main_needs_both_credentials unconfigured accepting_env
                  (Content sample_db)) H).
Defined.

(** X13: with ["--dry-run"] anywhere among the arguments, [main] leaves the
    file as it is and neither calls the API nor writes, whatever the file,
    the credentials and the surroundings. *)
Theorem dry_run_flag_protects_the_store (proc : Process) (env : Env) (dsk : Disk) :
  "--dry-run" ∈ argv proc ->
  disk (snd (main proc env (boot dsk))) = dsk /\
  Forall harmless (trace (snd (main proc env (boot dsk)))) /\
  (forall dw ok, FileWrite dw ok ∉ trace (snd (main proc env (boot dsk)))) /\
  (forall s, StatusCreate s ∉ trace (snd (main proc env (boot dsk)))).
Proof.
  intros Hflag.
  assert (G : disk (snd (main proc env (boot dsk))) = dsk /\
              Forall harmless (trace (snd (main proc env (boot dsk))))).
  { destruct (falsy (MASTODON_URL proc) || falsy (MASTODON_ACCESS_TOKEN proc)) eqn:E.
    - rewrite (main_unconfigured proc env dsk E). simpl. split; [reflexivity | constructor].
    - rewrite (main_configured proc env dsk E).
      rewrite (bool_decide_eq_true_2 _ Hflag).
      destruct (dry_run_once env (fresh dsk)) as (evs & -> & Hevs). simpl.
      split; [reflexivity | exact Hevs]. }
  destruct G as [Hdisk Hall]. split; [exact Hdisk|]. split; [exact Hall|].
  rewrite Forall_forall in Hall.
  split; intros ?; [intros ?|]; intros Hin; apply (Hall _ Hin).
Qed.

Lemma dry_run_flag_protects_the_store_witness :
  "--dry-run" ∈ argv configured_dry /\
  disk (snd (main configured_dry accepting_env (boot (Content sample_db)))) =
    Content sample_db /\
  Forall harmless (trace (snd (main configured_dry accepting_env (boot (Content sample_db))))) /\
  (forall dw ok,
      FileWrite dw ok ∉ trace (snd (main configured_dry accepting_env (boot (Content sample_db))))) /\
  (forall s,
      StatusCreate s ∉ trace (snd (main configured_dry accepting_env (boot (Content sample_db))))).
Proof.
  assert (H : "--dry-run" ∈ argv configured_dry) by (right; right; left).
  split; [exact H|].
  apply (dry_run_flag_protects_the_store configured_dry accepting_env
           (Content sample_db) H).
Defined.

Lemma fresh_is_loaded (dsk : Disk) : data (after_read (fresh dsk)) <> None.
Proof. rewrite after_read_data. now destruct dsk. Qed.

(** X14: the guard ["Database not loaded"] never fires in the program.  The
    constructor installs the default data and [read] replaces data only by
    data, so that, whatever the credentials, the arguments, the file and the
    surroundings, [main] does not throw that error, no [console.error] of the
    program reports it, and the database object holds data when [main]
    ends. *)
Theorem database_is_always_loaded_in_the_program
    (proc : Process) (env : Env) (dsk : Disk) :
  fst (main proc env (boot dsk)) <> Throw (Error "Database not loaded") /\
  data (snd (main proc env (boot dsk))) <> None /\
  forall label,
    ConsoleError label (Error "Database not loaded") ∉
      trace (snd (program proc env (boot dsk))).
Proof.
  unfold program, try_catch.
  destruct (falsy (MASTODON_URL proc) || falsy (MASTODON_ACCESS_TOKEN proc)) eqn:E.
  { rewrite (main_unconfigured proc env dsk E). simpl.
    split; [discriminate|]. split; [discriminate|].
    intros label Hin. not_listed Hin. }
  rewrite (main_configured proc env dsk E).
  pose proof (fresh_is_loaded dsk) as Hloaded.
  destruct (run_path_of env (bool_decide ("--dry-run" ∈ argv proc)) (fresh dsk))
    as (o & w' & -> & P). simpl fst. simpl snd.
  destruct P as [? | ? Hnone | d ? Hd ? | d ? Hd ? ? | d p ? Hd ? ? ? | d p ? Hd ? ? ? ?
                | d p id i q ? Hd ? ? ? ? ?];
    try (exfalso; now apply Hloaded);
    (split; [discriminate|]); (split; [simpl; congruence|]);
    intros label Hin; unfold console_error, emit in Hin;
    destruct dsk; simpl in Hin;
    try (destruct (write_succeeds env); simpl in Hin);
    not_listed Hin.
Qed.

Lemma database_is_always_loaded_in_the_program_witness :
  fst (main configured accepting_env (boot Missing)) <>
    Throw (Error "Database not loaded") /\
  data (snd (main configured accepting_env (boot Missing))) <> None /\
  forall label,
    ConsoleError label (Error "Database not loaded") ∉
      trace (snd (program configured accepting_env (boot Missing))).
Proof.
  apply (database_is_always_loaded_in_the_program configured accepting_env Missing).
Defined.

(** ** A full round *)

Lemma total_at_least (ps : list PlaylistEntry) (c : Z) :
  (forall q, q ∈ ps -> c <= effective_count q) ->
  Z.of_nat (length ps) * c <= total ps.
Proof.
  induction ps as [|p ps IH]; intros H; [simpl; lia|].
  assert (c <= effective_count p) by (apply H; left).
  assert (Z.of_nat (length ps) * c <= total ps)
    by (apply IH; intros q Hq; apply H; now right).
  change (total (p :: ps)) with (effective_count p + total ps).
  simpl length. lia.
Qed.

Lemma total_at_most_tight (ps : list PlaylistEntry) (c : Z) :
  (forall q, q ∈ ps -> effective_count q <= c) ->
  total ps = Z.of_nat (length ps) * c ->
  forall q, q ∈ ps -> effective_count q = c.
Proof.
  induction ps as [|p ps IH]; intros Hle Htot q Hq; [inversion Hq|].
  assert (Hp : effective_count p <= c) by (apply Hle; left).
  assert (Hrest : forall x, x ∈ ps -> effective_count x <= c)
    by (intros x Hx; apply Hle; now right).
  assert (Hup : total ps <= Z.of_nat (length ps) * c).
  { clear -Hrest. induction ps as [|x ps IH]; [simpl; lia|].
    assert (effective_count x <= c) by (apply Hrest; left).
    assert (total ps <= Z.of_nat (length ps) * c)
      by (apply IH; intros y Hy; apply Hrest; now right).
    change (total (x :: ps)) with (effective_count x + total ps).
    simpl length. lia. }
  change (total (p :: ps)) with (effective_count p + total ps) in Htot.
  simpl length in Htot.
  apply elem_of_cons in Hq as [->|Hq]; [lia|].
  apply IH; [exact Hrest | lia | exact Hq].
Qed.

(** One run in which the collection fits, the status is accepted and the
    write succeeds. *)
Lemma good_run_step (env : Env) (w : World) (d : Database) :
  disk w = Content d -> NoDup (map uri (playlists d)) -> playlists d <> [] ->
  (N.of_nat (length (playlists d)) <= max_arguments env)%N ->
  write_succeeds env = true ->
  (forall s, statuses_create env s <> Rejected) ->
  exists i p,
    playlists d !! i = Some p /\
    (forall q, q ∈ playlists d -> effective_count p <= effective_count q) /\
    disk (snd (postRandomPlaylist env false w)) =
      Content (mkDatabase (<[i := bump p]> (playlists d))).
Proof.
  intros Hdisk Hnd Hne Hfits Hw Hacc. apply fits_iff in Hfits.
  assert (Hdata : data (after_read w) = Some d)
    by (rewrite after_read_data, Hdisk; reflexivity).
  destruct (run_path_of env false w) as (o & w' & -> & P). simpl.
  destruct P as [? | ? ? | d' ? ? ? | d' ? Hd' ? Hsel | d' p ? ? ? ? ?
                | d' p ? ? ? ? ? Hrej
                | d' p id i q ? Hd' ? Hsel ? ? Hf]; try congruence;
    try (exfalso; now apply (Hacc _ Hrej)).
  - exfalso. assert (d' = d) as -> by congruence.
    destruct (selection_nonempty (random env) d Hne) as [x Hx]. congruence.
  - assert (d' = d) as -> by congruence.
    destruct (selection_member _ _ _ Hsel) as [Hin _].
    apply list_elem_of_lookup_1 in Hin as [i0 Hi0].
    rewrite (find_own_uri_NoDup (playlists d) p i0 Hnd Hi0) in Hf.
    injection Hf as <- <-. simpl. rewrite Hw.
    exists i0, p. split; [exact Hi0|]. split; [|reflexivity].
    intros q. now apply (selection_minimal (random env)).
Qed.

Lemma round_progress (m : Z) (len : nat) (envs : list Env) :
  (- 2 ^ 53 <= m < 2 ^ 53)%Z ->
  forall (w : World) (d : Database) (k : nat),
    disk w = Content d -> NoDup (map uri (playlists d)) ->
    length (playlists d) = len ->
    (forall q, q ∈ playlists d -> m <= effective_count q <= m + 1) ->
    total (playlists d) = Z.of_nat len * m + Z.of_nat k ->
    (k + length envs <= len)%nat ->
    Forall (fun env => (N.of_nat len <= max_arguments env)%N /\
                       write_succeeds env = true /\
                       forall s, statuses_create env s <> Rejected) envs ->
    exists d',
      disk (runs false envs w) = Content d' /\
      map uri (playlists d') = map uri (playlists d) /\
      (forall q, q ∈ playlists d' -> m <= effective_count q <= m + 1) /\
      total (playlists d') = Z.of_nat len * m + Z.of_nat (k + length envs).
Proof.
  intros Hm.
  induction envs as [|env envs IH];
    intros w d k Hdisk Hnd Hlen Hrange Htot Hk Hgood.
  - exists d. simpl. rewrite Nat.add_0_r. now repeat split; try apply Hrange.
  - inversion Hgood as [|? ? (Hfits & Hw & Hacc) Hrest]; subst. simpl in Hk.
    assert (Hne : playlists d <> []).
    { intros E. rewrite E in Hk. simpl in Hk. lia. }
    destruct (good_run_step env w d Hdisk Hnd Hne Hfits Hw Hacc)
      as (i & p & Hi & Hmin & Hstep).
    assert (Hpm : effective_count p = m).
    { assert (Hp : p ∈ playlists d) by now apply list_elem_of_lookup_2 in Hi.
      destruct (Hrange p Hp) as [Hlo Hhi].
      destruct (Z.eq_dec (effective_count p) m) as [E|E]; [exact E|].
      pose proof (total_at_least (playlists d) (m + 1)) as Hall.
      assert (Z.of_nat (length (playlists d)) * (m + 1) <= total (playlists d)).
      { apply Hall. intros q Hq. specialize (Hmin q Hq). lia. }
      lia. }
    assert (Hone : effective_count (bump p) = effective_count p + 1)
      by (apply bump_count_exact; lia).
    simpl runs.
    destruct (IH (snd (postRandomPlaylist env false w))
                (mkDatabase (<[i := bump p]> (playlists d))) (S k) Hstep)
      as (d' & Hd' & Hu & Hr & Ht).
    + simpl. now rewrite (uris_after_bump _ _ _ Hi).
    + simpl. apply length_insert.
    + simpl. intros q Hq. apply elem_of_bumped in Hq as [->|Hq].
      * rewrite Hone. lia.
      * now apply Hrange.
    + simpl. rewrite (total_after_bump _ _ _ Hi Hone), Htot. lia.
    + lia.
    + exact Hrest.
    + exists d'. split; [exact Hd'|]. simpl in Hu, Ht.
      rewrite (uris_after_bump _ _ _ Hi) in Hu.
      split; [exact Hu|]. split; [exact Hr|].
      rewrite Ht. simpl length. lia.
Qed.

(** X15: one full round posts every playlist exactly once.  Next to a file
    whose records have distinct uris and all the same effective count [m],
    with [m] from -2^53 to 2^53 - 1, as many runs as there are records, each
    on an engine that accepts that many arguments, with the status accepted
    and the write succeeding, leave a file with the same uris in which every
    count is [m + 1], whatever the random draws were. *)
Theorem full_round_posts_every_record_once
    (envs : list Env) (w : World) (d : Database) (m : Z) :
  disk w = Content d ->
  NoDup (map uri (playlists d)) ->
  (forall q, q ∈ playlists d -> effective_count q = m) ->
  (- 2 ^ 53 <= m < 2 ^ 53)%Z ->
  length envs = length (playlists d) ->
  Forall (fun env => (N.of_nat (length (playlists d)) <= max_arguments env)%N /\
                     write_succeeds env = true /\
                     forall s, statuses_create env s <> Rejected) envs ->
  exists d',
    disk (runs false envs w) = Content d' /\
    map uri (playlists d') = map uri (playlists d) /\
    forall q, q ∈ playlists d' -> effective_count q = m + 1.
Proof.
  intros Hdisk Hnd Hall Hm Hlen Hgood.
  assert (Htot : total (playlists d) = Z.of_nat (length (playlists d)) * m + Z.of_nat 0).
  { clear -Hall. induction (playlists d) as [|p ps IH]; [simpl; lia|].
    change (total (p :: ps)) with (effective_count p + total ps).
    rewrite (Hall p) by left. rewrite IH by (intros q Hq; apply Hall; now right).
    simpl length. lia. }
  destruct (round_progress m (length (playlists d)) envs Hm w d 0 Hdisk Hnd eq_refl)
    as (d' & Hd' & Hu & Hr & Ht);
    [ intros q Hq; rewrite (Hall q Hq); lia | exact Htot | simpl; lia | exact Hgood |].
  exists d'. split; [exact Hd'|]. split; [exact Hu|].
  assert (Hlen' : length (playlists d') = length (playlists d)).
  { rewrite <- (length_map uri), Hu. apply length_map. }
  apply total_at_most_tight.
  - intros q Hq. now apply Hr.
  - rewrite Ht, Hlen', Hlen. simpl. lia.
Qed.

Lemma full_round_posts_every_record_once_witness :
  disk (fresh (Content even_db)) = Content even_db /\
  NoDup (map uri (playlists even_db)) /\
  (forall q, q ∈ playlists even_db -> effective_count q = 1) /\
  (- 2 ^ 53 <= 1 < 2 ^ 53)%Z /\
  exists d',
    disk (runs false [accepting_env; late_draw_env] (fresh (Content even_db))) =
      Content d' /\
    map uri (playlists d') = map uri (playlists even_db) /\
    forall q, q ∈ playlists d' -> effective_count q = 1 + 1.
Proof.
  assert (Hnd : NoDup (map uri (playlists even_db))).
  { apply (bool_decide_unpack _). vm_compute. exact I. }
  assert (Hall : forall q, q ∈ playlists even_db -> effective_count q = 1).
  { intros q Hq.
    repeat (apply elem_of_cons in Hq as [->|Hq]); [reflexivity | reflexivity|].
    apply elem_of_nil in Hq. contradiction. }
  assert (Hm : (- 2 ^ 53 <= 1 < 2 ^ 53)%Z).
  { split; [vm_compute; discriminate | vm_compute; reflexivity]. }
  split; [reflexivity|]. split; [exact Hnd|]. split; [exact Hall|].
  split; [exact Hm|].
  apply (full_round_posts_every_record_once [accepting_env; late_draw_env]
           (fresh (Content even_db)) even_db 1 eq_refl Hnd Hall Hm eq_refl).
  repeat constructor; try discriminate; vm_compute; discriminate.
Defined.
